(** * Hospital relationship store: the notebook's Cypher queries over a
      property graph

    The notebook crm-neo4j-graph-database.ipynb talks to a graph database
    through parameterised Cypher statements.  Each Python function of the
    notebook is one statement; this file gives the statements their
    meaning over an explicit property graph (nodes with a label and a
    property map, typed directed relationships) and proves the properties
    the specification states about them.

    Conventions of the embedding:
    - a query parameter is [Param]: [None] is Python's [None] (Cypher's
      [null]), [Some v] a string, an integer or a boolean of Python; the
      driver sends integers of 64 bits only and raises OverflowError for
      any other, before the statement reaches the engine ([packable],
      [transaction]);
    - a node is known by its position in the store: nothing is ever
      deleted, so positions are stable, and a new node goes to the end;
    - properties are a finite map from property name to value; a property
      that is absent reads as [null];
    - each write function is given in two layers: its statement, under
      the function's name, is what the Cypher text does to the store once
      the engine runs it; the call of the function, [transaction], packs
      the parameters first and then runs the statement, and returns the
      new store or the error raised;
    - a read statement relates the store to the lists of rows the engine
      may hand back. *)

From stdpp Require Import gmap strings list fin_maps sorting.
From Stdlib Require Import ZArith.

Open Scope string_scope.
Open Scope list_scope.
Open Scope nat_scope.

(** ** Values and parameters *)

(** A value of Python as the notebook passes them: [str], [int] (without
    bound) and [bool]. *)
Inductive Value : Type :=
  | VStr (s : string)
  | VInt (z : Z)
  | VBool (b : bool).

#[global] Instance Value_eq_dec : EqDecision Value.
Proof. solve_decision. Defined.

(** A parameter of a statement: [None] is [null]. *)
Abbreviation Param := (option Value).

Definition str (s : string) : Param := Some (VStr s).
Definition int (z : Z) : Param := Some (VInt z).
Definition boolean (b : bool) : Param := Some (VBool b).

(** What the driver can send: its packer writes an integer in at most 64
    bits, two's complement, and refuses any other. *)
Definition packable (v : Param) : bool :=
  match v with
  | Some (VInt z) => bool_decide (- 2 ^ 63 ≤ z < 2 ^ 63)%Z
  | _ => true
  end.

(** ** Schema: node labels and relationship types of the notebook *)

Inductive Label : Type :=
  | Patient | Doctor | Appointment | Department | Treatment | Medication.

Inductive RelType : Type :=
  | HAS_APPOINTMENT | WITH_DOCTOR | WORKS_IN | UNDERGOES | INCLUDES_MEDICATION.

#[global] Instance Label_eq_dec : EqDecision Label.
Proof. solve_decision. Defined.

#[global] Instance RelType_eq_dec : EqDecision RelType.
Proof. solve_decision. Defined.

(** ** The property graph *)

Record Node : Type := mkNode {
  node_label : Label;
  node_props : gmap string Value
}.

Record Rel : Type := mkRel {
  rel_type : RelType;
  rel_src : nat;
  rel_dst : nat
}.

Record Graph : Type := mkGraph {
  nodes : list Node;
  rels : list Rel
}.

#[global] Instance Node_eq_dec : EqDecision Node.
Proof. solve_decision. Defined.

#[global] Instance Rel_eq_dec : EqDecision Rel.
Proof. solve_decision. Defined.

#[global] Instance Graph_eq_dec : EqDecision Graph.
Proof. solve_decision. Defined.

Definition empty_graph : Graph := mkGraph [] [].

(** What a call raises.  [NullMergeKey]: the engine's, MERGE refuses a
    node pattern whose property value is null.  [OverflowError]: the
    driver's, for an integer parameter outside 64 bits.  [TypeError]:
    Python's, for a call that does not give every positional parameter of
    a [def]. *)
Inductive Error : Type :=
  | NullMergeKey (l : Label) (k : string)
  | OverflowError
  | TypeError (f : string).

(** ** Cypher clauses *)

Module Cypher.

(** [n.k]: the property, [null] when absent. *)
Definition prop (n : Node) (k : string) : Param := node_props n !! k.

(** The node pattern [(x:l {k: $v})].  Equality with [null] is never
    true, so a [null] parameter matches nothing. *)
Definition has_key (l : Label) (k : string) (v : Param) (n : Node) : bool :=
  match v with
  | Some x => bool_decide (node_label n = l ∧ node_props n !! k = Some x)
  | None => false
  end.

(** The node pattern [(x:l)]. *)
Definition has_label (l : Label) (n : Node) : bool :=
  bool_decide (node_label n = l).

(** The nodes a pattern binds, by position, in store order. *)
Definition match_idx (P : Node → bool) (ns : list Node) : list nat :=
  filter (λ i, Is_true (from_option P false (ns !! i))) (seq 0 (length ns)).

(** [SET x.k = $v]: writes the property; a [null] value removes it. *)
Definition set_prop (k : string) (v : Param) (m : gmap string Value)
  : gmap string Value :=
  match v with
  | Some x => <[k := x]> m
  | None => delete k m
  end.

(** [SET x.k1 = $v1, x.k2 = $v2, ...], left to right. *)
Definition apply_sets (sets : list (string * Param)) (m : gmap string Value)
  : gmap string Value :=
  foldl (λ acc kv, set_prop kv.1 kv.2 acc) m sets.

Definition set_node (sets : list (string * Param)) (n : Node) : Node :=
  mkNode (node_label n) (apply_sets sets (node_props n)).

(** SET on every node the pattern binds. *)
Definition set_where (P : Node → bool) (sets : list (string * Param))
    (ns : list Node) : list Node :=
  (λ n, if P n then set_node sets n else n) <$> ns.

(** [MERGE (x:l {k: $v}) SET ...]: binds every node that matches; when
    none does, creates one with label [l] and the property [k]. *)
Definition merge_set (l : Label) (k : string) (v : Param)
    (sets : list (string * Param)) (g : Graph) : Error + Graph :=
  match v with
  | None => inl (NullMergeKey l k)
  | Some x =>
      if existsb (has_key l k v) (nodes g)
      then inr (mkGraph (set_where (has_key l k v) sets (nodes g)) (rels g))
      else inr (mkGraph (nodes g ++ [set_node sets (mkNode l {[k := x]})])
                        (rels g))
  end.

(** [MATCH (x:l {k: $v}) SET ...]: no node is created. *)
Definition match_set (l : Label) (k : string) (v : Param)
    (sets : list (string * Param)) (g : Graph) : Graph :=
  mkGraph (set_where (has_key l k v) sets (nodes g)) (rels g).

(** [MERGE (a)-[:t]->(b)] for one bound pair: the relationship is
    created unless one of that type already joins the two nodes. *)
Definition merge_rel (t : RelType) (rs : list Rel) (ab : nat * nat)
  : list Rel :=
  if bool_decide (mkRel t ab.1 ab.2 ∈ rs) then rs
  else rs ++ [mkRel t ab.1 ab.2].

(** [MATCH (a:la {ka: $va}), (b:lb {kb: $vb}) MERGE (a)-[:t]->(b)]: the
    MATCH yields the cartesian product of the two patterns' nodes; the
    MERGE runs once per row. *)
Definition match_merge_rel (t : RelType)
    (la : Label) (ka : string) (va : Param)
    (lb : Label) (kb : string) (vb : Param) (g : Graph) : Graph :=
  mkGraph (nodes g)
    (foldl (merge_rel t) (rels g)
       (a ← match_idx (has_key la ka va) (nodes g);
        b ← match_idx (has_key lb kb vb) (nodes g);
        [(a, b)])).

(** Relationships of type [t] leaving node [i] / entering node [j], in
    store order. *)
Definition out_rels (t : RelType) (i : nat) (rs : list Rel) : list Rel :=
  filter (λ r, rel_type r = t ∧ rel_src r = i) rs.

Definition in_rels (t : RelType) (j : nat) (rs : list Rel) : list Rel :=
  filter (λ r, rel_type r = t ∧ rel_dst r = j) rs.

(** The node at the other end of a relationship, when the store has it. *)
Definition node_at (g : Graph) (i : nat) : list Node :=
  option_list (nodes g !! i).

(** The last assignment a SET list makes to a property, if any. *)
Fixpoint assigned (sets : list (string * Param)) (k : string) : option Param :=
  match sets with
  | [] => None
  | kv :: rest =>
      match assigned rest k with
      | Some q => Some q
      | None => if decide (kv.1 = k) then Some kv.2 else None
      end
  end.

End Cypher.

Import Cypher.

(** ** The statements of the notebook's write functions

    Under the name of each function: what its Cypher statement does to
    the store when the engine runs it with the given parameters.  The
    call of the function, parameters packed first, is [transaction]
    below. *)

Definition create_patient (g : Graph) (patient_id name age contact : Param)
  : Error + Graph :=
  merge_set Patient "patient_id" patient_id
    [("name", name); ("age", age); ("contact", contact)] g.

Definition create_doctor (g : Graph) (doctor_id name specialty : Param)
  : Error + Graph :=
  merge_set Doctor "doctor_id" doctor_id
    [("name", name); ("specialty", specialty)] g.

Definition create_appointment (g : Graph) (appointment_id date time : Param)
  : Error + Graph :=
  merge_set Appointment "appointment_id" appointment_id
    [("date", date); ("time", time)] g.

Definition create_treatment (g : Graph) (treatment_id description : Param)
  : Error + Graph :=
  merge_set Treatment "treatment_id" treatment_id
    [("description", description)] g.

Definition create_medication (g : Graph) (medication_id name dosage : Param)
  : Error + Graph :=
  merge_set Medication "medication_id" medication_id
    [("name", name); ("dosage", dosage)] g.

Definition link_patient_appointment (g : Graph)
    (patient_id appointment_id : Param) : Graph :=
  match_merge_rel HAS_APPOINTMENT
    Patient "patient_id" patient_id
    Appointment "appointment_id" appointment_id g.

Definition link_appointment_doctor (g : Graph)
    (appointment_id doctor_id : Param) : Graph :=
  match_merge_rel WITH_DOCTOR
    Appointment "appointment_id" appointment_id
    Doctor "doctor_id" doctor_id g.

Definition link_treatment_medication (g : Graph)
    (treatment_id medication_id : Param) : Graph :=
  match_merge_rel INCLUDES_MEDICATION
    Treatment "treatment_id" treatment_id
    Medication "medication_id" medication_id g.

Definition link_patient_treatment (g : Graph)
    (patient_id treatment_id : Param) : Graph :=
  match_merge_rel UNDERGOES
    Patient "patient_id" patient_id
    Treatment "treatment_id" treatment_id g.

Definition set_appointment_reminder (g : Graph)
    (appointment_id reminder_sent : Param) : Graph :=
  match_set Appointment "appointment_id" appointment_id
    [("reminder_sent", reminder_sent)] g.

(** ** The notebook's read functions

    A read function returns [result.data()]: the list of the rows the
    statement yields.  Cypher fixes the order of the rows only under an
    ORDER BY; for each read function the file gives the rows in store
    order as an executable enumeration, and the lists the function may
    return as a relation on top of it.  (A call whose parameter the
    driver cannot send returns no list: it raises, see [transaction].) *)

Record AppointmentRow : Type := mkAppointmentRow {
  ar_appointment_id : Param;
  ar_date : Param;
  ar_time : Param;
  ar_doctor : Param
}.

Record PatientRow : Type := mkPatientRow {
  pr_patient_id : Param;
  pr_name : Param
}.

Record WorkloadRow : Type := mkWorkloadRow {
  wl_doctor : Param;
  wl_appointments : nat
}.

#[global] Instance AppointmentRow_eq_dec : EqDecision AppointmentRow.
Proof. solve_decision. Defined.

#[global] Instance PatientRow_eq_dec : EqDecision PatientRow.
Proof. solve_decision. Defined.

#[global] Instance WorkloadRow_eq_dec : EqDecision WorkloadRow.
Proof. solve_decision. Defined.

(** [MATCH (p:Patient {patient_id: $patient_id})-[:HAS_APPOINTMENT]->(a)
           -[:WITH_DOCTOR]->(d)
     RETURN a.appointment_id, a.date, a.time, d.name]: one row per path. *)
Definition patient_appointment_rows (g : Graph) (patient_id : Param)
  : list AppointmentRow :=
  p ← match_idx (has_key Patient "patient_id" patient_id) (nodes g);
  r1 ← out_rels HAS_APPOINTMENT p (rels g);
  a ← node_at g (rel_dst r1);
  r2 ← out_rels WITH_DOCTOR (rel_dst r1) (rels g);
  d ← node_at g (rel_dst r2);
  [mkAppointmentRow (prop a "appointment_id") (prop a "date") (prop a "time")
                    (prop d "name")].

(** The statement has no ORDER BY: any arrangement of the rows may come
    back. *)
Definition get_patient_appointments (g : Graph) (patient_id : Param)
    (rows : list AppointmentRow) : Prop :=
  rows ≡ₚ patient_appointment_rows g patient_id.

(** [MATCH (d:Doctor {doctor_id: $doctor_id})<-[:WITH_DOCTOR]-(a)
           <-[:HAS_APPOINTMENT]-(p)
     RETURN p.patient_id, p.name]: one row per path. *)
Definition doctor_patient_rows (g : Graph) (doctor_id : Param)
  : list PatientRow :=
  d ← match_idx (has_key Doctor "doctor_id" doctor_id) (nodes g);
  r2 ← in_rels WITH_DOCTOR d (rels g);
  a ← node_at g (rel_src r2);
  r1 ← in_rels HAS_APPOINTMENT (rel_src r2) (rels g);
  p ← node_at g (rel_src r1);
  [mkPatientRow (prop p "patient_id") (prop p "name")].

Definition get_doctor_patients (g : Graph) (doctor_id : Param)
    (rows : list PatientRow) : Prop :=
  rows ≡ₚ doctor_patient_rows g doctor_id.

(** [MATCH (d:Doctor)<-[:WITH_DOCTOR]-(a)]: the value of [d.name] on each
    matched row. *)
Definition workload_matches (g : Graph) : list Param :=
  d ← match_idx (has_label Doctor) (nodes g);
  dn ← node_at g d;
  r ← in_rels WITH_DOCTOR d (rels g);
  a ← node_at g (rel_src r);
  [prop dn "name"].

(** [RETURN d.name AS doctor, COUNT(a) AS appointments]: the expression
    that is not an aggregate, [d.name], is the grouping key; COUNT counts
    the rows of each group. *)
Fixpoint count_row (k : Param) (acc : list WorkloadRow) : list WorkloadRow :=
  match acc with
  | [] => [mkWorkloadRow k 1]
  | r :: rest =>
      if decide (wl_doctor r = k)
      then mkWorkloadRow k (S (wl_appointments r)) :: rest
      else r :: count_row k rest
  end.

Definition group_count (keys : list Param) : list WorkloadRow :=
  foldl (λ acc k, count_row k acc) [] keys.

(** [ORDER BY appointments DESC]. *)
Definition by_appointments_desc (x y : WorkloadRow) : Prop :=
  (wl_appointments y ≤ wl_appointments x)%nat.

#[global] Instance by_appointments_desc_dec x y :
  Decision (by_appointments_desc x y).
Proof. unfold by_appointments_desc. apply _. Defined.

Definition doctor_workload_rows (g : Graph) : list WorkloadRow :=
  merge_sort by_appointments_desc (group_count (workload_matches g)).

(** The groups, in any arrangement that respects the ORDER BY. *)
Definition get_doctor_workload (g : Graph) (rows : list WorkloadRow) : Prop :=
  rows ≡ₚ group_count (workload_matches g) ∧ Sorted by_appointments_desc rows.

(** ** Transactions and the notebook's cells *)

(** A transaction function with its arguments, as handed to
    [session.write_transaction] or [session.read_transaction]. *)
Inductive Op : Type :=
  | CreatePatient (patient_id name age contact : Param)
  | CreateDoctor (doctor_id name specialty : Param)
  | CreateAppointment (appointment_id date time : Param)
  | CreateTreatment (treatment_id description : Param)
  | CreateMedication (medication_id name dosage : Param)
  | LinkPatientAppointment (patient_id appointment_id : Param)
  | LinkAppointmentDoctor (appointment_id doctor_id : Param)
  | LinkTreatmentMedication (treatment_id medication_id : Param)
  | LinkPatientTreatment (patient_id treatment_id : Param)
  | SetAppointmentReminder (appointment_id reminder_sent : Param)
  | GetPatientAppointments (patient_id : Param)
  | GetDoctorPatients (doctor_id : Param)
  | GetDoctorWorkload.

(** The parameters [tx.run] is given. *)
Definition op_params (op : Op) : list Param :=
  match op with
  | CreatePatient i n a c => [i; n; a; c]
  | CreateDoctor i n s => [i; n; s]
  | CreateAppointment i d t => [i; d; t]
  | CreateTreatment i d => [i; d]
  | CreateMedication i n d => [i; n; d]
  | LinkPatientAppointment p a => [p; a]
  | LinkAppointmentDoctor a d => [a; d]
  | LinkTreatmentMedication t m => [t; m]
  | LinkPatientTreatment p t => [p; t]
  | SetAppointmentReminder a r => [a; r]
  | GetPatientAppointments p => [p]
  | GetDoctorPatients d => [d]
  | GetDoctorWorkload => []
  end.

(** Every parameter can be sent. *)
Definition packed (op : Op) : bool := forallb packable (op_params op).

(** The statement of the function, run by the engine: the store it
    leaves, or the error the engine raises.  The read statements are
    MATCH ... RETURN only and leave the store as it is. *)
Definition run_statement (g : Graph) (op : Op) : Error + Graph :=
  match op with
  | CreatePatient i n a c => create_patient g i n a c
  | CreateDoctor i n s => create_doctor g i n s
  | CreateAppointment i d t => create_appointment g i d t
  | CreateTreatment i d => create_treatment g i d
  | CreateMedication i n d => create_medication g i n d
  | LinkPatientAppointment p a => inr (link_patient_appointment g p a)
  | LinkAppointmentDoctor a d => inr (link_appointment_doctor g a d)
  | LinkTreatmentMedication t m => inr (link_treatment_medication g t m)
  | LinkPatientTreatment p t => inr (link_patient_treatment g p t)
  | SetAppointmentReminder a r => inr (set_appointment_reminder g a r)
  | GetPatientAppointments _ | GetDoctorPatients _ | GetDoctorWorkload => inr g
  end.

(** The call of a transaction function: [tx.run] packs the parameters,
    raising OverflowError when one cannot be sent, and only then is the
    statement run.  The store after the call, or the error it raises. *)
Definition transaction (g : Graph) (op : Op) : Error + Graph :=
  if packed op then run_statement g op else inl OverflowError.

(** What the session leaves in the store: a transaction that raises is
    rolled back. *)
Definition store_after (g : Graph) (op : Op) : Graph :=
  match transaction g op with
  | inr g' => g'
  | inl _ => g
  end.

(** A cell runs its transactions in order and stops at the first error. *)
Fixpoint run_cell (g : Graph) (ops : list Op) : Error + Graph :=
  match ops with
  | [] => inr g
  | op :: rest =>
      match transaction g op with
      | inr g' => run_cell g' rest
      | inl e => inl e
      end
  end.

(** The stores a run of transactions goes through, the first one
    included. *)
Fixpoint trace (g : Graph) (ops : list Op) : list Graph :=
  match ops with
  | [] => [g]
  | op :: rest => g :: trace (store_after g op) rest
  end.

(** The store a run of transactions ends in. *)
Definition store_after_all (g : Graph) (ops : list Op) : Graph :=
  foldl store_after g ops.

(** Cell "populating-database-code". *)
Definition populating_database : list Op :=
  [ CreatePatient (str "P001") (str "Alice Smith") (int 30) (str "555-1234");
    CreatePatient (str "P002") (str "Bob Johnson") (int 45) (str "555-5678");
    CreateDoctor (str "D001") (str "Dr. Emily Brown") (str "Cardiology");
    CreateDoctor (str "D002") (str "Dr. John Doe") (str "Neurology");
    CreateAppointment (str "A001") (str "2023-10-15") (str "10:00");
    CreateAppointment (str "A002") (str "2023-10-16") (str "14:00");
    LinkPatientAppointment (str "P001") (str "A001");
    LinkPatientAppointment (str "P002") (str "A002");
    LinkAppointmentDoctor (str "A001") (str "D001");
    LinkAppointmentDoctor (str "A002") (str "D002") ].

(** The cell that populates treatments and medications. *)
Definition populating_treatments : list Op :=
  [ CreateTreatment (str "T001") (str "Heart Disease Treatment");
    CreateMedication (str "M001") (str "Aspirin") (str "100mg daily");
    CreateMedication (str "M002") (str "Beta Blockers") (str "50mg daily");
    LinkTreatmentMedication (str "T001") (str "M001");
    LinkTreatmentMedication (str "T001") (str "M002");
    LinkPatientTreatment (str "P001") (str "T001") ].

(** The cells that follow the population: the reminder update and the
    workload query. *)
Definition after_population : list Op :=
  [ SetAppointmentReminder (str "A001") (boolean false);
    GetDoctorWorkload ].

(** The whole notebook, cell after cell. *)
Definition notebook : list Op :=
  populating_database
  ++ [ GetPatientAppointments (str "P001"); GetDoctorPatients (str "D001") ]
  ++ populating_treatments
  ++ after_population.

Definition populated : Graph := store_after_all empty_graph populating_database.

(** ** Vocabulary of the statements *)

(** How many nodes of kind [l] carry the identifier [v] under key [k]. *)
Definition entity_count (l : Label) (k : string) (v : Param) (g : Graph) : nat :=
  length (match_idx (has_key l k v) (nodes g)).

(** The entity an upsert addresses: its kind, the property that holds its
    identifier, and the identifier. *)
Definition upsert_target (op : Op) : option (Label * string * Param) :=
  match op with
  | CreatePatient i _ _ _ => Some (Patient, "patient_id", i)
  | CreateDoctor i _ _ => Some (Doctor, "doctor_id", i)
  | CreateAppointment i _ _ => Some (Appointment, "appointment_id", i)
  | CreateTreatment i _ => Some (Treatment, "treatment_id", i)
  | CreateMedication i _ _ => Some (Medication, "medication_id", i)
  | _ => None
  end.

(** The attributes an upsert writes, with the values of the call. *)
Definition upsert_sets (op : Op) : list (string * Param) :=
  match op with
  | CreatePatient _ n a c => [("name", n); ("age", a); ("contact", c)]
  | CreateDoctor _ n s => [("name", n); ("specialty", s)]
  | CreateAppointment _ d t => [("date", d); ("time", t)]
  | CreateTreatment _ d => [("description", d)]
  | CreateMedication _ n d => [("name", n); ("dosage", d)]
  | _ => []
  end.

(** The relationship a link function merges, with the two node patterns
    of its MATCH. *)
Definition link_target (op : Op)
  : option (RelType * (Label * string * Param) * (Label * string * Param)) :=
  match op with
  | LinkPatientAppointment p a =>
      Some (HAS_APPOINTMENT, (Patient, "patient_id", p),
            (Appointment, "appointment_id", a))
  | LinkAppointmentDoctor a d =>
      Some (WITH_DOCTOR, (Appointment, "appointment_id", a),
            (Doctor, "doctor_id", d))
  | LinkTreatmentMedication t m =>
      Some (INCLUDES_MEDICATION, (Treatment, "treatment_id", t),
            (Medication, "medication_id", m))
  | LinkPatientTreatment p t =>
      Some (UNDERGOES, (Patient, "patient_id", p),
            (Treatment, "treatment_id", t))
  | _ => None
  end.

(** A path patient -> appointment -> doctor of the store, through the
    nodes at positions [p], [a] and [d], and the row it yields. *)
Definition appointment_path (g : Graph) (patient_id : Param)
    (p a d : nat) (row : AppointmentRow) : Prop :=
  ∃ np na nd,
    nodes g !! p = Some np ∧ nodes g !! a = Some na ∧ nodes g !! d = Some nd
    ∧ node_label np = Patient
    ∧ is_Some patient_id ∧ prop np "patient_id" = patient_id
    ∧ mkRel HAS_APPOINTMENT p a ∈ rels g
    ∧ mkRel WITH_DOCTOR a d ∈ rels g
    ∧ row = mkAppointmentRow (prop na "appointment_id") (prop na "date")
              (prop na "time") (prop nd "name").

(** A path doctor <- appointment <- patient of the store, and the row it
    yields. *)
Definition doctor_patient_path (g : Graph) (doctor_id : Param)
    (d a p : nat) (row : PatientRow) : Prop :=
  ∃ nd na np,
    nodes g !! d = Some nd ∧ nodes g !! a = Some na ∧ nodes g !! p = Some np
    ∧ node_label nd = Doctor
    ∧ is_Some doctor_id ∧ prop nd "doctor_id" = doctor_id
    ∧ mkRel WITH_DOCTOR a d ∈ rels g
    ∧ mkRel HAS_APPOINTMENT p a ∈ rels g
    ∧ row = mkPatientRow (prop np "patient_id") (prop np "name").

(** The endpoints the schema gives each relationship type. *)
Definition rel_schema (t : RelType) : Label * Label :=
  match t with
  | HAS_APPOINTMENT => (Patient, Appointment)
  | WITH_DOCTOR => (Appointment, Doctor)
  | WORKS_IN => (Doctor, Department)
  | UNDERGOES => (Patient, Treatment)
  | INCLUDES_MEDICATION => (Treatment, Medication)
  end.

(** Every relationship joins two nodes of the store, of the kinds the
    schema gives its type. *)
Definition schema_typed (g : Graph) : Prop :=
  ∀ r, r ∈ rels g →
    ∃ ns nd, nodes g !! rel_src r = Some ns ∧ nodes g !! rel_dst r = Some nd
             ∧ node_label ns = (rel_schema (rel_type r)).1
             ∧ node_label nd = (rel_schema (rel_type r)).2.

(** The property that holds the identifier of each kind; no statement of
    the notebook creates a Department. *)
Definition key_of (l : Label) : string :=
  match l with
  | Patient => "patient_id"
  | Doctor => "doctor_id"
  | Appointment => "appointment_id"
  | Department => "department_id"
  | Treatment => "treatment_id"
  | Medication => "medication_id"
  end.

(** The stores the notebook's functions build from an empty database. *)
Inductive reachable : Graph → Prop :=
  | reachable_empty : reachable empty_graph
  | reachable_step g op : reachable g → reachable (store_after g op).

(** The setup of the specification's examples: one patient, one
    appointment, one doctor, linked. *)
Definition appointment_setup_cell : list Op :=
  [ CreatePatient (str "P001") (str "Alice Smith") (int 30) (str "555-1234");
    CreateAppointment (str "A001") (str "2023-10-15") (str "10:00");
    CreateDoctor (str "D001") (str "Dr. Emily Brown") (str "Cardiology");
    LinkPatientAppointment (str "P001") (str "A001");
    LinkAppointmentDoctor (str "A001") (str "D001") ].

Definition appointment_setup : Graph :=
  store_after_all empty_graph appointment_setup_cell.

Definition row_A001 : AppointmentRow :=
  mkAppointmentRow (str "A001") (str "2023-10-15") (str "10:00")
                   (str "Dr. Emily Brown").


(** One patient with two appointments, A001 linked before A002, both with
    the same doctor. *)
Definition two_appointments_cell : list Op :=
  appointment_setup_cell
  ++ [ CreateAppointment (str "A002") (str "2023-10-16") (str "14:00");
       LinkPatientAppointment (str "P001") (str "A002");
       LinkAppointmentDoctor (str "A002") (str "D001") ].

Definition two_appointments : Graph :=
  store_after_all empty_graph two_appointments_cell.

(** One patient with two appointments, of which only A001 has a doctor. *)
Definition doctorless_appointment_cell : list Op :=
  appointment_setup_cell
  ++ [ CreateAppointment (str "A003") (str "2023-10-17") (str "09:00");
       LinkPatientAppointment (str "P001") (str "A003") ].

Definition doctorless_appointment : Graph :=
  store_after_all empty_graph doctorless_appointment_cell.


Definition row_P001 : PatientRow :=
  mkPatientRow (str "P001") (str "Alice Smith").

(** ** Growth of the store and its invariants *)

(** The node [n'] is the node [n] at a later time: same kind, same
    identifier. *)
Definition same_entity (n n' : Node) : Prop :=
  node_label n' = node_label n ∧ ∀ l, prop n' (key_of l) = prop n (key_of l).

(** Nothing of [g] is missing from [g']: every node is still at its
    position, as the same entity, and every relationship is still there,
    the old ones first and in their order. *)
Definition grows (g g' : Graph) : Prop :=
  (∀ i n, nodes g !! i = Some n →
          ∃ n', nodes g' !! i = Some n' ∧ same_entity n n')
  ∧ rels g `prefix_of` rels g'.

(** At most one entity of a kind carries a given identifier. *)
Definition keys_unique (g : Graph) : Prop :=
  ∀ l x, entity_count l (key_of l) (Some x) g ≤ 1.

(** The four shapes the store can take after a transaction: unchanged (a
    read, or a write that raised); a SET on the nodes a pattern binds; one
    node created by a MERGE that found none; relationships merged between
    nodes of the kinds the schema gives the type.  The SET lists never
    name an identifier property. *)
Inductive store_step (g : Graph) : Graph → Prop :=
  | step_same : store_step g g
  | step_set l k v sets :
      (∀ l', key_of l' ∉ sets.*1) →
      store_step g (mkGraph (set_where (has_key l k v) sets (nodes g)) (rels g))
  | step_new l x sets :
      (∀ l', key_of l' ∉ sets.*1) →
      existsb (has_key l (key_of l) (Some x)) (nodes g) = false →
      store_step g
        (mkGraph (nodes g ++ [set_node sets (mkNode l {[key_of l := x]})])
                 (rels g))
  | step_link t ka va kb vb :
      store_step g
        (match_merge_rel t (rel_schema t).1 ka va (rel_schema t).2 kb vb g).

(** ** Vocabulary of the workload statement *)

(** The rows the workload MATCH yields for the doctor at position [d]: its
    incoming WITH_DOCTOR relationships (from nodes of the store). *)
Definition doctor_appointments (g : Graph) (d : nat) : nat :=
  length (filter (λ r, is_Some (nodes g !! rel_src r))
                 (in_rels WITH_DOCTOR d (rels g))).

(** [d.name] of the node at position [d]. *)
Definition name_at (g : Graph) (d : nat) : option Param :=
  (λ n, prop n "name") <$> nodes g !! d.

(** The Doctor nodes whose name is [k]. *)
Definition doctors_named (g : Graph) (k : Param) : list nat :=
  filter (λ d, name_at g d = Some k) (match_idx (has_label Doctor) (nodes g)).

(** The appointments of all the doctors named [k] together. *)
Definition name_appointments (g : Graph) (k : Param) : nat :=
  sum_list (doctor_appointments g <$> doctors_named g k).

(** The count a group holds for the key [k], 0 when there is no such
    group. *)
Fixpoint row_count (k : Param) (acc : list WorkloadRow) : nat :=
  match acc with
  | [] => 0
  | r :: rest =>
      if decide (wl_doctor r = k) then wl_appointments r else row_count k rest
  end.

(** The groups have distinct keys and counts that are not zero. *)
Definition groups_ok (acc : list WorkloadRow) : Prop :=
  NoDup (wl_doctor <$> acc) ∧ Forall (λ r, 0 < wl_appointments r) acc.

(** The reading of the specification under which every doctor with an
    appointment has a row of its own, holding its own count. *)
Definition workload_row_per_doctor : Prop :=
  ∀ g rows,
    get_doctor_workload g rows →
    ∀ d nd, nodes g !! d = Some nd → node_label nd = Doctor →
            0 < doctor_appointments g d →
            mkWorkloadRow (prop nd "name") (doctor_appointments g d) ∈ rows.

(** Two doctors, D001 and D002, both named Dr. Lee, with one appointment
    each. *)
Definition same_name_doctors_cell : list Op :=
  [ CreateDoctor (str "D001") (str "Dr. Lee") (str "Cardiology");
    CreateDoctor (str "D002") (str "Dr. Lee") (str "Neurology");
    CreateAppointment (str "A001") (str "2023-10-15") (str "10:00");
    CreateAppointment (str "A002") (str "2023-10-16") (str "14:00");
    LinkAppointmentDoctor (str "A001") (str "D001");
    LinkAppointmentDoctor (str "A002") (str "D002") ].

Definition same_name_doctors : Graph :=
  store_after_all empty_graph same_name_doctors_cell.

Definition row_Brown : WorkloadRow := mkWorkloadRow (str "Dr. Emily Brown") 1.
Definition row_Doe : WorkloadRow := mkWorkloadRow (str "Dr. John Doe") 1.

(** ** Calls with fewer arguments *)

(** Python binds the positional arguments of a call to the parameters of
    the [def]; none of the notebook's functions gives a parameter a
    default value, so a call with another number of arguments raises
    TypeError before any statement runs.  [args] are the arguments after
    [tx]. *)
Definition call_create_patient (g : Graph) (args : list Param) : Error + Graph :=
  match args with
  | [patient_id; name; age; contact] =>
      transaction g (CreatePatient patient_id name age contact)
  | _ => inl (TypeError "create_patient")
  end.

Definition call_create_doctor (g : Graph) (args : list Param) : Error + Graph :=
  match args with
  | [doctor_id; name; specialty] =>
      transaction g (CreateDoctor doctor_id name specialty)
  | _ => inl (TypeError "create_doctor")
  end.

(** The reading of the specification under which an attribute that a call
    does not supply (the only way to call [create_patient] without a
    value for it is to pass [None]) is left as it was. *)
Definition partial_upsert_keeps_unmentioned : Prop :=
  ∀ g patient_id name age contact i n,
    nodes g !! i = Some n →
    has_key Patient "patient_id" patient_id n = true →
    ∃ g' n',
      transaction g (CreatePatient patient_id name age contact) = inr g'
      ∧ nodes g' !! i = Some n'
      ∧ (name = None → prop n' "name" = prop n "name")
      ∧ (age = None → prop n' "age" = prop n "age")
      ∧ (contact = None → prop n' "contact" = prop n "contact").

(** The reading of the specification under which a link with a missing
    endpoint completes without error, whatever identifiers it is given. *)
Definition link_missing_endpoint_is_silent : Prop :=
  ∀ g op t la ka va lb kb vb,
    link_target op = Some (t, (la, ka, va), (lb, kb, vb)) →
    entity_count la ka va g = 0 ∨ entity_count lb kb vb g = 0 →
    transaction g op = inr g.

(** The reading of the specification under which two identical upserts
    yield one entity whatever attribute values they are given (for an
    identifier that is a value, in a store without duplicates). *)
Definition upsert_twice_yields_one : Prop :=
  ∀ g op l k x,
    upsert_target op = Some (l, k, Some x) →
    entity_count l k (Some x) g ≤ 1 →
    ∃ g1,
      transaction g op = inr g1
      ∧ transaction g1 op = inr g1
      ∧ entity_count l k (Some x) g1 = 1.

(** The reading of the specification under which the reminder update for
    an appointment that does not exist completes without error, whatever
    identifier it is given. *)
Definition reminder_missing_is_silent : Prop :=
  ∀ g appointment_id b,
    entity_count Appointment "appointment_id" appointment_id g = 0 →
    transaction g (SetAppointmentReminder appointment_id (boolean b)) = inr g.

(** ** The flow *)

(** The transactions that populate the store: the creates and the links. *)
Definition is_population (op : Op) : bool :=
  match op with
  | CreatePatient _ _ _ _ | CreateDoctor _ _ _ | CreateAppointment _ _ _
  | CreateTreatment _ _ | CreateMedication _ _ _
  | LinkPatientAppointment _ _ | LinkAppointmentDoctor _ _
  | LinkTreatmentMedication _ _ | LinkPatientTreatment _ _ => true
  | _ => false
  end.

(** * The metrics flow *)

Module Metrics.

(** Modelled from the spec: the metrics notebook (RCM-Healthcare.ipynb,
    rcm_analysis.py) is not among the sources; only the README describes
    the record and the derived field, "The Revenue_Gap is calculated as
    Payment_Per_Patient - Cost_Per_Patient".  Amounts are whole numbers,
    as in the README's example record. *)
Record HospitalRecord : Type := mkHospitalRecord {
  Hospital_ID : Z;
  State : string;
  Cost_Per_Patient : Z;
  Payment_Per_Patient : Z
}.

(** Modelled from the spec: the derived field of a record. *)
Definition Revenue_Gap (r : HospitalRecord) : Z :=
  (Payment_Per_Patient r - Cost_Per_Patient r)%Z.

(** Modelled from the spec: the table with the derived column, the
    records themselves left as they are. *)
Definition with_revenue_gap (table : list HospitalRecord)
  : list (HospitalRecord * Z) :=
  (λ r, (r, Revenue_Gap r)) <$> table.

(** The README's example record. *)
Definition example_record : HospitalRecord :=
  mkHospitalRecord 1 "CA" 12000 13500.

End Metrics.

(** ** Further vocabulary: well-formed stores *)

(** The node carries the identifier of its kind. *)
Definition has_identifier (n : Node) : Prop :=
  is_Some (prop n (key_of (node_label n))).

(** The WITH_DOCTOR relationships the workload statement matches: from a
    node of the store into a Doctor node. *)
Definition doctor_links (g : Graph) : list Rel :=
  filter (λ r, rel_type r = WITH_DOCTOR
               ∧ is_Some (nodes g !! rel_src r)
               ∧ (node_label <$> nodes g !! rel_dst r) = Some Doctor)
         (rels g).

(** The node is an entity of kind [l] whose identifier, under key [k], is
    [v] (a value). *)
Definition is_entity (l : Label) (k : string) (v : Param) (n : Node) : Prop :=
  node_label n = l ∧ is_Some v ∧ prop n k = v.

(** A patient whose age is an integer of Python outside 64 bits. *)
Definition create_patient_overflow : Op :=
  CreatePatient (str "P001") (str "Alice Smith") (int (2 ^ 63))
                (str "555-1234").

(** * Facts about the clauses *)

Section clause_facts.
Implicit Types (P : Node → bool) (ns : list Node) (m : gmap string Value).
Implicit Types (sets : list (string * Param)) (k : string) (v : Param).

Lemma elem_of_match_idx P ns i :
  i ∈ match_idx P ns ↔ ∃ n, ns !! i = Some n ∧ P n = true.
Proof.
  unfold match_idx. rewrite list_elem_of_filter, elem_of_seq. split.
  - intros [HP _]. destruct (ns !! i) as [n|]; simpl in HP; [|done].
    exists n. split; [done|]. by apply Is_true_true.
  - intros (n & Hn & HP). rewrite Hn. simpl. split; [by apply Is_true_true|].
    apply lookup_lt_Some in Hn. lia.
Qed.

Lemma match_idx_nil P ns : match_idx P ns = [] ↔ existsb P ns = false.
Proof.
  split.
  - intros Hnil. apply not_true_is_false. intros Hex.
    apply existsb_exists in Hex as (n & Hin & HP).
    apply list_elem_of_In, list_elem_of_lookup in Hin as [i Hi].
    assert (i ∈ match_idx P ns) as Hi' by (apply elem_of_match_idx; eauto).
    rewrite Hnil in Hi'. by apply not_elem_of_nil in Hi'.
  - intros Hex. apply elem_of_nil_inv. intros i Hi.
    apply elem_of_match_idx in Hi as (n & Hn & HP).
    assert (existsb P ns = true) as Hex'; [|congruence].
    apply existsb_exists. exists n. split; [|done].
    apply list_elem_of_In, list_elem_of_lookup. eauto.
Qed.

Lemma lookup_set_prop k v m k' :
  set_prop k v m !! k' = if decide (k = k') then v else m !! k'.
Proof.
  destruct v as [x|]; simpl.
  - apply lookup_insert.
  - apply lookup_delete.
Qed.

Lemma lookup_apply_sets sets m k :
  apply_sets sets m !! k = default (m !! k) (assigned sets k).
Proof.
  revert m. induction sets as [|[k' p] rest IH]; intros m; [done|].
  unfold apply_sets in *. simpl. rewrite IH.
  destruct (assigned rest k); simpl; [done|].
  rewrite lookup_set_prop. by case_decide.
Qed.

Lemma assigned_None sets k : k ∉ sets.*1 → assigned sets k = None.
Proof.
  induction sets as [|[k' p] rest IH]; [done|]. simpl.
  rewrite not_elem_of_cons. intros [Hne Hrest]. rewrite (IH Hrest).
  by case_decide.
Qed.

Lemma lookup_apply_sets_other sets m k :
  k ∉ sets.*1 → apply_sets sets m !! k = m !! k.
Proof. intros Hk. by rewrite lookup_apply_sets, assigned_None. Qed.

Lemma apply_sets_idemp sets m :
  apply_sets sets (apply_sets sets m) = apply_sets sets m.
Proof.
  apply map_eq. intros k. rewrite !lookup_apply_sets.
  by destruct (assigned sets k).
Qed.

Lemma set_node_idemp sets n : set_node sets (set_node sets n) = set_node sets n.
Proof. unfold set_node. simpl. by rewrite apply_sets_idemp. Qed.

Lemma has_key_true l k x n :
  has_key l k (Some x) n = true ↔ node_label n = l ∧ node_props n !! k = Some x.
Proof. unfold has_key. apply bool_decide_eq_true. Qed.

Lemma has_key_set_node l k v sets n :
  k ∉ sets.*1 → has_key l k v (set_node sets n) = has_key l k v n.
Proof.
  intros Hk. destruct v as [x|]; [|done]. unfold has_key, set_node. simpl.
  by rewrite lookup_apply_sets_other.
Qed.

Lemma set_where_lookup P sets ns i :
  set_where P sets ns !! i
  = (λ n, if P n then set_node sets n else n) <$> ns !! i.
Proof. unfold set_where. apply list_lookup_fmap. Qed.

Lemma set_where_length P sets ns : length (set_where P sets ns) = length ns.
Proof. unfold set_where. apply length_fmap. Qed.

Lemma set_where_idemp l k v sets ns :
  k ∉ sets.*1 →
  set_where (has_key l k v) sets (set_where (has_key l k v) sets ns)
  = set_where (has_key l k v) sets ns.
Proof.
  intros Hk. unfold set_where. rewrite <- list_fmap_compose.
  apply list_fmap_ext. intros i n _. simpl.
  destruct (has_key l k v n) eqn:Hn.
  - by rewrite has_key_set_node, Hn, set_node_idemp.
  - by rewrite Hn.
Qed.

Lemma existsb_set_where l k v sets ns :
  k ∉ sets.*1 →
  existsb (has_key l k v) (set_where (has_key l k v) sets ns)
  = existsb (has_key l k v) ns.
Proof.
  intros Hk. induction ns as [|n ns IH]; [done|]. simpl. rewrite IH.
  f_equal. destruct (has_key l k v n) eqn:Hn; [|done].
  by rewrite has_key_set_node.
Qed.

Lemma match_idx_set_where l k v sets ns (Q : Node → bool) :
  (∀ n, Q (set_node sets n) = Q n) →
  match_idx Q (set_where (has_key l k v) sets ns) = match_idx Q ns.
Proof.
  intros HQ. unfold match_idx. rewrite set_where_length.
  apply list_filter_iff. intros i. rewrite set_where_lookup.
  destruct (ns !! i) as [n|]; simpl; [|done].
  destruct (has_key l k v n); [by rewrite HQ|done].
Qed.

End clause_facts.

(** * Upserts: MERGE followed by SET *)

Section upsert_facts.
Implicit Types (ns : list Node) (sets : list (string * Param)) (g : Graph).

Lemma filter_ext_elem {A} (P Q : A → Prop)
    `{!∀ x, Decision (P x), !∀ x, Decision (Q x)} (l : list A) :
  (∀ x, x ∈ l → P x ↔ Q x) → filter P l = filter Q l.
Proof.
  induction l as [|a l IH]; intros HPQ; [done|].
  rewrite !filter_cons. rewrite IH by (intros x Hx; apply HPQ; by right).
  destruct (decide (P a)) as [Ha|Ha], (decide (Q a)) as [Hb|Hb]; try done.
  - destruct Hb. apply HPQ; [by left|done].
  - destruct Ha. apply HPQ; [by left|done].
Qed.

Lemma match_idx_snoc (P : Node → bool) ns n :
  match_idx P (ns ++ [n])
  = match_idx P ns ++ (if P n then [length ns] else []).
Proof.
  unfold match_idx. rewrite length_app. simpl.
  rewrite seq_app, filter_app. f_equal.
  - apply filter_ext_elem. intros i Hi%elem_of_seq.
    by rewrite lookup_app_l by lia.
  - simpl. rewrite filter_cons, filter_nil, list_lookup_middle by done.
    simpl. destruct (P n); by case_decide.
Qed.

Lemma existsb_false_Forall (P : Node → bool) ns :
  existsb P ns = false → ∀ n, n ∈ ns → P n = false.
Proof.
  intros Hex n Hn. apply not_true_is_false. intros HP.
  assert (existsb P ns = true) as Hex'; [|congruence].
  apply existsb_exists. exists n. by rewrite <- list_elem_of_In.
Qed.

Lemma set_where_none (P : Node → bool) sets ns :
  existsb P ns = false → set_where P sets ns = ns.
Proof.
  intros Hex. unfold set_where. rewrite <- (list_fmap_id ns) at 2.
  apply list_fmap_ext. intros i n Hn. simpl.
  rewrite (existsb_false_Forall P ns Hex n); [done|].
  apply list_elem_of_lookup. eauto.
Qed.

Lemma has_key_fresh l k x sets :
  k ∉ sets.*1 → has_key l k (Some x) (set_node sets (mkNode l {[k := x]})) = true.
Proof.
  intros Hk. rewrite has_key_set_node by done. apply has_key_true. simpl.
  split; [done|]. apply lookup_singleton_eq.
Qed.

Lemma merge_set_null l k sets g : merge_set l k None sets g = inl (NullMergeKey l k).
Proof. done. Qed.

Lemma merge_set_total l k x sets g : ∃ g', merge_set l k (Some x) sets g = inr g'.
Proof. unfold merge_set. destruct (existsb _ _); eauto. Qed.

Lemma merge_set_match l k x sets g :
  existsb (has_key l k (Some x)) (nodes g) = true →
  merge_set l k (Some x) sets g
  = inr (mkGraph (set_where (has_key l k (Some x)) sets (nodes g)) (rels g)).
Proof. intros Hex. unfold merge_set. by rewrite Hex. Qed.

Lemma merge_set_create l k x sets g :
  existsb (has_key l k (Some x)) (nodes g) = false →
  merge_set l k (Some x) sets g
  = inr (mkGraph (nodes g ++ [set_node sets (mkNode l {[k := x]})]) (rels g)).
Proof. intros Hex. unfold merge_set. by rewrite Hex. Qed.

Lemma merge_set_idemp l k x sets g g1 :
  k ∉ sets.*1 →
  merge_set l k (Some x) sets g = inr g1 →
  merge_set l k (Some x) sets g1 = inr g1.
Proof.
  intros Hk.
  destruct (existsb (has_key l k (Some x)) (nodes g)) eqn:Hex.
  - rewrite merge_set_match by done. intros [= <-].
    rewrite merge_set_match; cbn [nodes rels].
    + by rewrite set_where_idemp.
    + by rewrite existsb_set_where.
  - rewrite merge_set_create by done. intros [= <-].
    rewrite merge_set_match; cbn [nodes rels].
    + f_equal. f_equal. unfold set_where. rewrite fmap_app.
      cbn [fmap list_fmap]. rewrite has_key_fresh by done.
      rewrite set_node_idemp. f_equal. by apply set_where_none.
    + rewrite existsb_app. cbn [existsb]. rewrite has_key_fresh by done.
      by rewrite orb_true_r.
Qed.

Lemma merge_set_count l k x sets g g1 :
  k ∉ sets.*1 →
  merge_set l k (Some x) sets g = inr g1 →
  entity_count l k (Some x) g ≤ 1 →
  entity_count l k (Some x) g1 = 1.
Proof.
  intros Hk. unfold entity_count.
  destruct (existsb (has_key l k (Some x)) (nodes g)) eqn:Hex.
  - rewrite merge_set_match by done. intros [= <-] Hle. cbn [nodes].
    rewrite match_idx_set_where by (intros n; by apply has_key_set_node).
    destruct (match_idx (has_key l k (Some x)) (nodes g)) as [|i rest] eqn:Hm.
    + apply match_idx_nil in Hm. congruence.
    + simpl in *. lia.
  - rewrite merge_set_create by done. intros [= <-] _. cbn [nodes].
    rewrite match_idx_snoc, has_key_fresh by done.
    apply match_idx_nil in Hex. by rewrite Hex.
Qed.

Lemma transaction_packed g op :
  packed op = true → transaction g op = run_statement g op.
Proof. unfold transaction. by intros ->. Qed.

Lemma transaction_overflow g op :
  packed op = false → transaction g op = inl OverflowError.
Proof. unfold transaction. by intros ->. Qed.

Lemma store_after_overflow g op : packed op = false → store_after g op = g.
Proof. intros Hp. unfold store_after. by rewrite transaction_overflow. Qed.

Lemma transaction_inr_packed g op g' :
  transaction g op = inr g' → packed op = true ∧ run_statement g op = inr g'.
Proof. unfold transaction. by destruct (packed op). Qed.

Lemma statement_upsert g op l k v :
  upsert_target op = Some (l, k, v) →
  run_statement g op = merge_set l k v (upsert_sets op) g
  ∧ k ∉ (upsert_sets op).*1.
Proof.
  destruct op; simpl; intros Heq; try discriminate;
    injection Heq as <- <- <-; (split; [done|]);
    rewrite ?not_elem_of_cons; repeat split; try discriminate;
    apply not_elem_of_nil.
Qed.

Lemma transaction_upsert g op l k v :
  packed op = true →
  upsert_target op = Some (l, k, v) →
  transaction g op = merge_set l k v (upsert_sets op) g
  ∧ k ∉ (upsert_sets op).*1.
Proof. intros Hp Ht. rewrite transaction_packed by done. by apply statement_upsert. Qed.

End upsert_facts.

(** A [None] identifier: MERGE raises (when the other parameters can be
    sent), and the store stays as it was. *)
Lemma upsert_null_id_raises g op l k :
  upsert_target op = Some (l, k, None) →
  (packed op = true → transaction g op = inl (NullMergeKey l k))
  ∧ store_after g op = g.
Proof.
  intros Ht. destruct (packed op) eqn:Hp.
  - destruct (transaction_upsert g op l k None Hp Ht) as [Htx _].
    unfold store_after. by rewrite Htx.
  - split; [done|]. by apply store_after_overflow.
Qed.

(** The cells of the notebook and of the examples run without error. *)
Lemma cells_run :
  run_cell empty_graph populating_database = inr populated
  ∧ run_cell empty_graph appointment_setup_cell = inr appointment_setup
  ∧ run_cell empty_graph two_appointments_cell = inr two_appointments
  ∧ run_cell empty_graph doctorless_appointment_cell
    = inr doctorless_appointment
  ∧ run_cell empty_graph same_name_doctors_cell = inr same_name_doctors.
Proof. repeat split; by vm_compute. Qed.

(** C3, as stated, fails: an attribute value that is an integer outside
    64 bits makes the driver raise OverflowError before the statement is
    sent, so neither call creates the patient. *)
Lemma upsert_overflow_creates_nothing : ¬ upsert_twice_yields_one.
Proof.
  intros Hspec.
  destruct (Hspec empty_graph create_patient_overflow
              Patient "patient_id" (VStr "P001") eq_refl)
    as (g1 & Htx & _).
  - vm_compute. lia.
  - vm_compute in Htx. discriminate Htx.
Qed.

(** C3, amended.  An upsert is idempotent.  For each of the five create
    functions and all arguments, a second call with the same arguments
    leaves the store exactly as the first call left it.  When an argument
    is an integer outside 64 bits the call raises OverflowError and the
    store stays as it was.  Otherwise, for an identifier that is a value,
    both calls succeed, and the store then holds one entity of that kind
    with that identifier provided it held at most one before (which every
    store built by these functions does, see [reachable_entity_count]).
    (With [None] as identifier both calls are refused by MERGE, see
    [upsert_null_id_raises].) *)
Theorem upsert_idempotent g op l k v :
  upsert_target op = Some (l, k, v) →
  store_after (store_after g op) op = store_after g op
  ∧ (packed op = false →
     transaction g op = inl OverflowError ∧ store_after g op = g)
  ∧ ∀ x, v = Some x → packed op = true →
      ∃ g1,
        transaction g op = inr g1
        ∧ transaction g1 op = inr g1
        ∧ (entity_count l k (Some x) g ≤ 1 → entity_count l k (Some x) g1 = 1).
Proof.
  intros Ht.
  assert (∀ x, v = Some x → packed op = true →
    ∃ g1, transaction g op = inr g1 ∧ transaction g1 op = inr g1
          ∧ (entity_count l k (Some x) g ≤ 1 →
             entity_count l k (Some x) g1 = 1)) as Hvalue.
  { intros x -> Hp.
    destruct (transaction_upsert g op l k (Some x) Hp Ht) as [Hg Hk].
    destruct (merge_set_total l k x (upsert_sets op) g) as [g1 Hg1].
    exists g1. split; [congruence|]. split.
    - destruct (transaction_upsert g1 op l k (Some x) Hp Ht) as [-> _].
      by eapply merge_set_idemp.
    - intros Hle. by eapply merge_set_count. }
  split; [|split; [|done]].
  - destruct (packed op) eqn:Hp; [|by rewrite !store_after_overflow].
    destruct v as [x|].
    + destruct (Hvalue x eq_refl eq_refl) as (g1 & H1 & H2 & _).
      unfold store_after. rewrite H1, H2. done.
    + destruct (upsert_null_id_raises g op l k Ht) as [_ Hsame].
      by rewrite !Hsame.
  - intros Hp. split; [by apply transaction_overflow|].
    by apply store_after_overflow.
Qed.

(** * Links: MATCH of both endpoints followed by MERGE of the relationship *)

Section link_facts.
Implicit Types (rs : list Rel) (pairs : list (nat * nat)) (g : Graph).

Lemma merge_rel_elem t rs ab r :
  r ∈ merge_rel t rs ab ↔ r ∈ rs ∨ r = mkRel t ab.1 ab.2.
Proof.
  unfold merge_rel. case_bool_decide as Hin.
  - split; [by left|]. by intros [?| ->].
  - rewrite elem_of_app, list_elem_of_singleton. done.
Qed.

Lemma merge_rel_fold_elem t pairs rs r :
  r ∈ foldl (merge_rel t) rs pairs
  ↔ r ∈ rs ∨ ∃ ab, ab ∈ pairs ∧ r = mkRel t ab.1 ab.2.
Proof.
  revert rs. induction pairs as [|ab pairs IH]; intros rs; simpl.
  - split; [by left|]. intros [?|(ab & Hab & _)]; [done|].
    by apply not_elem_of_nil in Hab.
  - rewrite IH, merge_rel_elem. split.
    + intros [[?| ->]|(ab' & Hab' & ->)].
      * by left.
      * right. exists ab. split; [by left|done].
      * right. exists ab'. split; [by right|done].
    + intros [?|(ab' & Hab' & ->)]; [by left; left|].
      apply elem_of_cons in Hab' as [->|Hab'].
      * left. by right.
      * right. eauto.
Qed.

Lemma merge_rel_fold_prefix t pairs rs :
  rs `prefix_of` foldl (merge_rel t) rs pairs.
Proof.
  revert rs. induction pairs as [|ab pairs IH]; intros rs; simpl; [done|].
  etrans; [|apply IH]. unfold merge_rel. case_bool_decide; [done|].
  by apply prefix_app_r.
Qed.

Lemma elem_of_pairs (xs ys : list nat) a b :
  (a, b) ∈ (x ← xs; y ← ys; [(x, y)]) ↔ a ∈ xs ∧ b ∈ ys.
Proof.
  rewrite list_elem_of_bind. split.
  - intros (x & Hin & Hx). apply list_elem_of_bind in Hin as (y & Hin & Hy).
    apply list_elem_of_singleton in Hin as [= -> ->]. done.
  - intros [Ha Hb]. exists a. split; [|done].
    apply list_elem_of_bind. exists b. split; [|done].
    by apply list_elem_of_singleton.
Qed.

Lemma pairs_nil (xs ys : list nat) :
  xs = [] ∨ ys = [] → (x ← xs; y ← ys; [(x, y)]) = [].
Proof.
  intros Hnil. apply elem_of_nil_inv. intros [a b] [Ha Hb]%elem_of_pairs.
  destruct Hnil as [-> | ->]; by eapply not_elem_of_nil.
Qed.

Lemma statement_link g op t la ka va lb kb vb :
  link_target op = Some (t, (la, ka, va), (lb, kb, vb)) →
  run_statement g op = inr (match_merge_rel t la ka va lb kb vb g).
Proof. destruct op; simpl; intros Heq; try discriminate; by simplify_eq. Qed.

Lemma transaction_link g op t la ka va lb kb vb :
  packed op = true →
  link_target op = Some (t, (la, ka, va), (lb, kb, vb)) →
  transaction g op = inr (match_merge_rel t la ka va lb kb vb g).
Proof. intros Hp Ht. rewrite transaction_packed by done. by apply statement_link. Qed.

End link_facts.

(** * The reminder flag: MATCH followed by SET *)

(** * The traversal queries *)

Section read_facts.
Implicit Types (g : Graph) (rs : list Rel).

Lemma has_key_spec l k v n :
  has_key l k v n = true ↔ node_label n = l ∧ is_Some v ∧ prop n k = v.
Proof.
  destruct v as [x|].
  - rewrite has_key_true. unfold prop. split.
    + intros [? ?]. eauto.
    + intros (? & _ & ?). done.
  - simpl. split; [done|]. intros (_ & [? ?] & _). done.
Qed.

Lemma elem_of_out_rels t i rs r :
  r ∈ out_rels t i rs ↔ r ∈ rs ∧ r = mkRel t i (rel_dst r).
Proof.
  unfold out_rels. rewrite list_elem_of_filter. destruct r as [t' s d]. simpl.
  split.
  - intros [[-> ->] ?]. done.
  - intros [? [= -> ->]]. done.
Qed.

Lemma elem_of_in_rels t j rs r :
  r ∈ in_rels t j rs ↔ r ∈ rs ∧ r = mkRel t (rel_src r) j.
Proof.
  unfold in_rels. rewrite list_elem_of_filter. destruct r as [t' s d]. simpl.
  split.
  - intros [[-> ->] ?]. done.
  - intros [? [= -> ->]]. done.
Qed.

Lemma elem_of_node_at g i n : n ∈ node_at g i ↔ nodes g !! i = Some n.
Proof.
  unfold node_at. destruct (nodes g !! i) as [n'|]; simpl.
  - rewrite list_elem_of_singleton. split; congruence.
  - split; [|done]. intros Hn. by apply not_elem_of_nil in Hn.
Qed.

Lemma elem_of_patient_appointment_rows g patient_id row :
  row ∈ patient_appointment_rows g patient_id
  ↔ ∃ p a d, appointment_path g patient_id p a d row.
Proof.
  unfold patient_appointment_rows, appointment_path. split.
  - intros (p & Hrow & Hp)%list_elem_of_bind.
    apply list_elem_of_bind in Hrow as (r1 & Hrow & Hr1).
    apply list_elem_of_bind in Hrow as (na & Hrow & Hna).
    apply list_elem_of_bind in Hrow as (r2 & Hrow & Hr2).
    apply list_elem_of_bind in Hrow as (nd & Hrow & Hnd).
    apply list_elem_of_singleton in Hrow.
    apply elem_of_match_idx in Hp as (np & Hnp & Hkey).
    apply has_key_spec in Hkey as (Hl & Hsome & Hid).
    apply elem_of_out_rels in Hr1 as [Hr1 Heq1].
    apply elem_of_out_rels in Hr2 as [Hr2 Heq2].
    apply elem_of_node_at in Hna, Hnd.
    exists p, (rel_dst r1), (rel_dst r2), np, na, nd.
    rewrite <- Heq1, <- Heq2. done.
  - intros (p & a & d & np & na & nd & Hnp & Hna & Hnd & Hl & Hsome & Hid
            & Hr1 & Hr2 & ->).
    apply list_elem_of_bind. exists p. split.
    2:{ apply elem_of_match_idx. exists np. split; [done|].
        by apply has_key_spec. }
    apply list_elem_of_bind. exists (mkRel HAS_APPOINTMENT p a). split.
    2:{ by apply elem_of_out_rels. }
    apply list_elem_of_bind. exists na. split.
    2:{ by apply elem_of_node_at. }
    apply list_elem_of_bind. exists (mkRel WITH_DOCTOR a d). split.
    2:{ by apply elem_of_out_rels. }
    apply list_elem_of_bind. exists nd. split.
    2:{ by apply elem_of_node_at. }
    by apply list_elem_of_singleton.
Qed.

Lemma elem_of_doctor_patient_rows g doctor_id row :
  row ∈ doctor_patient_rows g doctor_id
  ↔ ∃ d a p, doctor_patient_path g doctor_id d a p row.
Proof.
  unfold doctor_patient_rows, doctor_patient_path. split.
  - intros (d & Hrow & Hd)%list_elem_of_bind.
    apply list_elem_of_bind in Hrow as (r2 & Hrow & Hr2).
    apply list_elem_of_bind in Hrow as (na & Hrow & Hna).
    apply list_elem_of_bind in Hrow as (r1 & Hrow & Hr1).
    apply list_elem_of_bind in Hrow as (np & Hrow & Hnp).
    apply list_elem_of_singleton in Hrow.
    apply elem_of_match_idx in Hd as (nd & Hnd & Hkey).
    apply has_key_spec in Hkey as (Hl & Hsome & Hid).
    apply elem_of_in_rels in Hr1 as [Hr1 Heq1].
    apply elem_of_in_rels in Hr2 as [Hr2 Heq2].
    apply elem_of_node_at in Hna, Hnp.
    exists d, (rel_src r2), (rel_src r1), nd, na, np.
    rewrite <- Heq1, <- Heq2. done.
  - intros (d & a & p & nd & na & np & Hnd & Hna & Hnp & Hl & Hsome & Hid
            & Hr2 & Hr1 & ->).
    apply list_elem_of_bind. exists d. split.
    2:{ apply elem_of_match_idx. exists nd. split; [done|].
        by apply has_key_spec. }
    apply list_elem_of_bind. exists (mkRel WITH_DOCTOR a d). split.
    2:{ by apply elem_of_in_rels. }
    apply list_elem_of_bind. exists na. split.
    2:{ by apply elem_of_node_at. }
    apply list_elem_of_bind. exists (mkRel HAS_APPOINTMENT p a). split.
    2:{ by apply elem_of_in_rels. }
    apply list_elem_of_bind. exists np. split.
    2:{ by apply elem_of_node_at. }
    by apply list_elem_of_singleton.
Qed.




End read_facts.

(** C2, as stated, fails: for an endpoint identifier that is an integer
    outside 64 bits no such patient exists, yet the call raises
    OverflowError. *)
Lemma link_overflow_raises : ¬ link_missing_endpoint_is_silent.
Proof.
  intros Hspec.
  specialize (Hspec populated
                (LinkPatientAppointment (int (2 ^ 63)) (str "A001"))
                HAS_APPOINTMENT Patient "patient_id" (int (2 ^ 63))
                Appointment "appointment_id" (str "A001") eq_refl).
  assert (transaction populated
            (LinkPatientAppointment (int (2 ^ 63)) (str "A001"))
          = inl OverflowError) as Hraise by by vm_compute.
  rewrite Hraise in Hspec. discriminate Hspec. left. by vm_compute.
Qed.

(** C2, amended.  Linking.  For each of the four link functions and every
    pair of endpoint identifiers the driver can send: the call raises
    nothing and creates no node; the relationships already stored stay,
    in their order; when the store holds an entity of the first kind with
    the first identifier and one of the second kind with the second, the
    relationship between the two is stored afterwards; no other
    relationship is added; and when either endpoint is missing the store
    is left exactly as it was.  For an identifier that is an integer
    outside 64 bits the call raises OverflowError and the store stays as
    it was. *)
Theorem link_entities g op t la ka va lb kb vb :
  link_target op = Some (t, (la, ka, va), (lb, kb, vb)) →
  (packed op = false →
   transaction g op = inl OverflowError ∧ store_after g op = g)
  ∧ (packed op = true →
     ∃ g',
       transaction g op = inr g'
       ∧ nodes g' = nodes g
       ∧ rels g `prefix_of` rels g'
       ∧ (∀ a b na nb,
            nodes g !! a = Some na → is_entity la ka va na →
            nodes g !! b = Some nb → is_entity lb kb vb nb →
            mkRel t a b ∈ rels g')
       ∧ (∀ r, r ∈ rels g' → r ∈ rels g ∨
            ∃ a b na nb,
              nodes g !! a = Some na ∧ is_entity la ka va na
              ∧ nodes g !! b = Some nb ∧ is_entity lb kb vb nb
              ∧ r = mkRel t a b)
       ∧ ((∀ n, n ∈ nodes g → ¬ is_entity la ka va n)
          ∨ (∀ n, n ∈ nodes g → ¬ is_entity lb kb vb n) →
          g' = g)).
Proof.
  intros Ht. split.
  { intros Hp.
    split; [by apply transaction_overflow|by apply store_after_overflow]. }
  intros Hp. eexists. split; [by apply transaction_link|].
  unfold match_merge_rel. cbn [nodes rels].
  split; [done|]. split; [apply merge_rel_fold_prefix|]. split; [|split].
  - intros a b na nb Hna Ha Hnb Hb. apply merge_rel_fold_elem. right.
    exists (a, b). split; [|done]. apply elem_of_pairs.
    split; apply elem_of_match_idx; eexists; (split; [done|]);
      by apply has_key_spec.
  - intros r [?|([a b] & Hab & ->)]%merge_rel_fold_elem; [by left|].
    apply elem_of_pairs in Hab as [Ha Hb].
    apply elem_of_match_idx in Ha as (na & Hna & Ha%has_key_spec).
    apply elem_of_match_idx in Hb as (nb & Hnb & Hb%has_key_spec).
    right. by exists a, b, na, nb.
  - intros Hmiss. rewrite pairs_nil; [by destruct g|].
    destruct Hmiss as [Hno|Hno]; [left|right]; apply elem_of_nil_inv;
      intros i (n & Hn & Hk%has_key_spec)%elem_of_match_idx;
      (apply (Hno n); [|done]); apply list_elem_of_lookup; eauto.
Qed.

(** C6, as stated, fails: for an identifier that is an integer outside 64
    bits no appointment exists, yet the call raises OverflowError. *)
Lemma reminder_overflow_raises : ¬ reminder_missing_is_silent.
Proof.
  intros Hspec.
  specialize (Hspec populated (int (2 ^ 63)) false).
  assert (transaction populated
            (SetAppointmentReminder (int (2 ^ 63)) (boolean false))
          = inl OverflowError) as Hraise by by vm_compute.
  rewrite Hraise in Hspec. discriminate Hspec. by vm_compute.
Qed.

(** C6, amended.  [set_appointment_reminder] with a boolean, for an
    identifier the driver can send, raises nothing; on every Appointment
    node with the given identifier a read of [reminder_sent] then gives
    that boolean, and the node's label and other properties are as
    before; every other node and every relationship is untouched; and
    when no appointment has the identifier the store is left as it was.
    For an identifier that is an integer outside 64 bits the call raises
    OverflowError and the store stays as it was. *)
Theorem set_appointment_reminder_spec g appointment_id b :
  let op := SetAppointmentReminder appointment_id (boolean b) in
  let g' := set_appointment_reminder g appointment_id (boolean b) in
  (packable appointment_id = false →
   transaction g op = inl OverflowError ∧ store_after g op = g)
  ∧ (packable appointment_id = true →
     transaction g op = inr g'
     ∧ (∀ i n, nodes g !! i = Some n →
          is_entity Appointment "appointment_id" appointment_id n →
          ∃ n', nodes g' !! i = Some n'
                ∧ prop n' "reminder_sent" = boolean b
                ∧ node_label n' = node_label n
                ∧ ∀ k, k ≠ "reminder_sent" → prop n' k = prop n k)
     ∧ (∀ i n, nodes g !! i = Some n →
          ¬ is_entity Appointment "appointment_id" appointment_id n →
          nodes g' !! i = Some n)
     ∧ length (nodes g') = length (nodes g)
     ∧ rels g' = rels g
     ∧ ((∀ n, n ∈ nodes g →
           ¬ is_entity Appointment "appointment_id" appointment_id n) →
        g' = g)).
Proof.
  intros op g'. subst op g'.
  assert (packed (SetAppointmentReminder appointment_id (boolean b))
          = packable appointment_id) as Hpacked.
  { unfold packed. cbn [op_params forallb packable boolean].
    by rewrite !andb_true_r. }
  split.
  { intros Hp. rewrite <- Hpacked in Hp.
    split; [by apply transaction_overflow|by apply store_after_overflow]. }
  intros Hp. rewrite <- Hpacked in Hp.
  split; [by rewrite transaction_packed|].
  unfold set_appointment_reminder, match_set.
  cbn [nodes rels]. split; [|split; [|split; [|split]]].
  - intros i n Hn Hkey%has_key_spec. rewrite set_where_lookup, Hn. cbn [fmap option_fmap option_map].
    rewrite Hkey. eexists. split; [done|]. unfold prop, set_node. cbn [node_props node_label].
    split; [|split; [done|]].
    + rewrite lookup_apply_sets. done.
    + intros k Hk. rewrite lookup_apply_sets_other; [done|].
      cbn [fmap list_fmap fst]. rewrite not_elem_of_cons.
      split; [done|apply not_elem_of_nil].
  - intros i n Hn Hkey. rewrite set_where_lookup, Hn. cbn [fmap option_fmap option_map].
    destruct (has_key Appointment "appointment_id" appointment_id n) eqn:Hk;
      [|done].
    by apply has_key_spec in Hk.
  - apply set_where_length.
  - done.
  - intros Hnone. rewrite set_where_none; [by destruct g|].
    apply not_true_is_false. intros (n & Hin & Hk%has_key_spec)%existsb_exists.
    apply (Hnone n); [|done]. by apply list_elem_of_In.
Qed.





(** C10. An appointment without a doctor yields no row.  Whatever list
    [get_patient_appointments] returns, if the node at position [a] has no
    outgoing WITH_DOCTOR relationship then every row of the list comes
    from a path through another node; if no node carrying the appointment
    identifier [aid] has such a relationship, no row of the list carries
    [aid]; and for a patient linked to A001 (with a doctor) and to A003
    (without one) the call returns the row of A001 alone. *)
Theorem doctorless_appointment_omitted :
  (∀ g patient_id rows,
     get_patient_appointments g patient_id rows →
     (∀ a, out_rels WITH_DOCTOR a (rels g) = [] →
        ∀ row, row ∈ rows →
          ∃ p a' d, a' ≠ a ∧ appointment_path g patient_id p a' d row)
     ∧ (∀ aid,
          (∀ i n, nodes g !! i = Some n → prop n "appointment_id" = aid →
                  out_rels WITH_DOCTOR i (rels g) = []) →
          ∀ row, row ∈ rows → ar_appointment_id row ≠ aid))
  ∧ (mkRel HAS_APPOINTMENT 0 3 ∈ rels doctorless_appointment
     ∧ (nodes doctorless_appointment !! 3 ≫= λ n, prop n "appointment_id")
       = str "A003"
     ∧ out_rels WITH_DOCTOR 3 (rels doctorless_appointment) = []
     ∧ ∀ rows,
         get_patient_appointments doctorless_appointment (str "P001") rows
         ↔ rows = [row_A001]).
Proof.
  split.
  - intros g pid rows Hrows. unfold get_patient_appointments in Hrows.
    split.
    + intros a Hnone row Hrow. rewrite Hrows in Hrow.
      apply elem_of_patient_appointment_rows in Hrow as (p & a' & d & Hpath).
      exists p, a', d. split; [|done]. intros ->.
      destruct Hpath as (np & na & nd & _ & _ & _ & _ & _ & _ & _ & Hr2 & _).
      assert (mkRel WITH_DOCTOR a d ∈ out_rels WITH_DOCTOR a (rels g)) as Hin
        by by apply elem_of_out_rels.
      rewrite Hnone in Hin. by apply not_elem_of_nil in Hin.
    + intros aid Hnone row Hrow Haid. rewrite Hrows in Hrow.
      apply elem_of_patient_appointment_rows in Hrow as (p & a & d & Hpath).
      destruct Hpath as (np & na & nd & _ & Hna & _ & _ & _ & _ & _ & Hr2 & ->).
      simpl in Haid.
      assert (mkRel WITH_DOCTOR a d ∈ out_rels WITH_DOCTOR a (rels g)) as Hin
        by by apply elem_of_out_rels.
      rewrite (Hnone a na Hna Haid) in Hin. by apply not_elem_of_nil in Hin.
  - split; [apply (bool_decide_unpack _); by vm_compute|].
    split; [by vm_compute|]. split; [by vm_compute|].
    intros rows. unfold get_patient_appointments.
    replace (patient_appointment_rows doctorless_appointment (str "P001"))
      with [row_A001] by by vm_compute.
    apply Permutation_singleton_r.
Qed.

(** * What every transaction preserves *)

Section invariants.
Implicit Types (g : Graph) (sets : list (string * Param)).

Lemma set_where_frame (P : Node → bool) sets ns i n :
  ns !! i = Some n →
  ∃ n', set_where P sets ns !! i = Some n'
        ∧ node_label n' = node_label n
        ∧ (∀ k, k ∉ sets.*1 → prop n' k = prop n k)
        ∧ (P n = false → n' = n)
        ∧ (P n = true → n' = set_node sets n).
Proof.
  intros Hn. rewrite set_where_lookup, Hn. cbn [fmap option_fmap option_map].
  eexists. split; [done|]. destruct (P n); (split; [done|]).
  - split; [|done]. intros k Hk. unfold prop, set_node. cbn [node_props].
    by apply lookup_apply_sets_other.
  - done.
Qed.

(** No SET list of the notebook names an identifier property. *)
Ltac key_not_set :=
  let l' := fresh "l" in
  intros l'; destruct l'; cbn [fmap list_fmap fst key_of];
  rewrite ?not_elem_of_cons; repeat split;
  first [ discriminate | apply not_elem_of_nil ].

Lemma store_after_step g op : store_step g (store_after g op).
Proof.
  destruct (packed op) eqn:Hp;
    [|rewrite store_after_overflow by done; apply step_same].
  unfold store_after. rewrite transaction_packed by done. clear Hp.
  destruct op as [i ? ? ?|i ? ?|i ? ?|i ?|i ? ?| | | | | | | | ]; simpl;
    try apply step_same;
    try (destruct i as [x|]; [|apply step_same];
         unfold create_patient, create_doctor, create_appointment,
           create_treatment, create_medication;
         match goal with
         | |- context [merge_set ?l ?k (Some x) ?sets g] =>
             destruct (existsb (has_key l k (Some x)) (nodes g)) eqn:Hex;
             [ rewrite merge_set_match by done; apply step_set
             | rewrite merge_set_create by done; apply (step_new g l x sets);
               [|done] ];
             key_not_set
         end).
  - apply (step_link g HAS_APPOINTMENT).
  - apply (step_link g WITH_DOCTOR).
  - apply (step_link g INCLUDES_MEDICATION).
  - apply (step_link g UNDERGOES).
  - unfold set_appointment_reminder, match_set. apply step_set.
    key_not_set.
Qed.

Lemma same_entity_refl n : same_entity n n.
Proof. by split. Qed.

Lemma same_entity_set_node sets n :
  (∀ l', key_of l' ∉ sets.*1) → same_entity n (set_node sets n).
Proof.
  intros Hk. split; [done|]. intros l. unfold prop, set_node.
  cbn [node_props]. by apply lookup_apply_sets_other.
Qed.

Lemma set_where_same_entity (P : Node → bool) sets ns i n :
  (∀ l', key_of l' ∉ sets.*1) →
  ns !! i = Some n →
  ∃ n', set_where P sets ns !! i = Some n' ∧ same_entity n n'.
Proof.
  intros Hk Hn.
  destruct (set_where_frame P sets ns i n Hn) as (n' & Hn' & Hl & Hp & _).
  exists n'. split; [done|]. split; [done|]. intros l. by apply Hp.
Qed.

Lemma step_grows g g' : store_step g g' → grows g g'.
Proof.
  intros [|l k v sets Hk|l x sets Hk Hex|t ka va kb vb]; split;
    cbn [nodes rels match_merge_rel]; try done.
  - intros i n Hn. exists n. split; [done|apply same_entity_refl].
  - intros i n Hn. by apply set_where_same_entity.
  - intros i n Hn. exists n. split; [|apply same_entity_refl].
    rewrite lookup_app_l; [done|]. by eapply lookup_lt_Some.
  - intros i n Hn. exists n. split; [done|apply same_entity_refl].
  - apply merge_rel_fold_prefix.
Qed.

Lemma grows_refl g : grows g g.
Proof.
  split; [|done]. intros i n Hn. exists n. split; [done|apply same_entity_refl].
Qed.

Lemma grows_trans g1 g2 g3 : grows g1 g2 → grows g2 g3 → grows g1 g3.
Proof.
  intros [Hn12 Hr12] [Hn23 Hr23]. split; [|by etrans].
  intros i n Hn. destruct (Hn12 i n Hn) as (n2 & Hn2 & Hl2 & Hk2).
  destruct (Hn23 i n2 Hn2) as (n3 & Hn3 & Hl3 & Hk3).
  exists n3. split; [done|]. split; [congruence|].
  intros l. by rewrite Hk3, Hk2.
Qed.

Lemma step_schema_typed g g' : store_step g g' → schema_typed g → schema_typed g'.
Proof.
  intros Hstep Htyped.
  assert (∀ r, r ∈ rels g →
    ∃ ns nd, nodes g' !! rel_src r = Some ns ∧ nodes g' !! rel_dst r = Some nd
             ∧ node_label ns = (rel_schema (rel_type r)).1
             ∧ node_label nd = (rel_schema (rel_type r)).2) as Hold.
  { intros r Hr. destruct (Htyped r Hr) as (ns & nd & Hs & Hd & Hls & Hld).
    destruct (step_grows g g' Hstep) as [Hnodes _].
    destruct (Hnodes _ _ Hs) as (ns' & Hs' & Hls' & _).
    destruct (Hnodes _ _ Hd) as (nd' & Hd' & Hld' & _).
    exists ns', nd'. repeat split; congruence. }
  destruct Hstep as [|l k v sets Hk|l x sets Hk Hex|t ka va kb vb];
    intros r Hr; cbn [nodes rels match_merge_rel] in *; try by apply Hold.
  apply merge_rel_fold_elem in Hr as [Hr|([a b] & Hab & ->)]; [by apply Hold|].
  apply elem_of_pairs in Hab as [Ha Hb].
  apply elem_of_match_idx in Ha as (na & Hna & Ha).
  apply elem_of_match_idx in Hb as (nb & Hnb & Hb).
  apply has_key_spec in Ha as [Hla _]. apply has_key_spec in Hb as [Hlb _].
  by exists na, nb.
Qed.

Lemma key_of_inj l l' : key_of l = key_of l' → l = l'.
Proof. by destruct l, l'. Qed.

Lemma step_keys_unique g g' : store_step g g' → keys_unique g → keys_unique g'.
Proof.
  intros Hstep Huniq l0 x0. specialize (Huniq l0 x0). unfold entity_count in *.
  destruct Hstep as [|l k v sets Hk|l x sets Hk Hex|t ka va kb vb];
    cbn [nodes rels match_merge_rel]; try done.
  - rewrite match_idx_set_where; [done|].
    intros n. by apply has_key_set_node.
  - rewrite match_idx_snoc, length_app.
    destruct (has_key l0 (key_of l0) (Some x0) _) eqn:Hnew; simpl; [|lia].
    rewrite has_key_set_node in Hnew by done.
    apply has_key_true in Hnew as [Hl Hx]. simpl in Hl, Hx. subst l0.
    rewrite lookup_singleton_eq in Hx. injection Hx as <-.
    apply match_idx_nil in Hex. rewrite Hex. simpl. lia.
Qed.

Lemma reachable_grows g op : reachable g → grows g (store_after g op).
Proof. intros _. apply step_grows, store_after_step. Qed.

(** Every store the notebook's functions build is typed by the schema. *)
Lemma reachable_schema_typed g : reachable g → schema_typed g.
Proof.
  induction 1 as [|g op _ IH].
  - intros r Hr. by apply not_elem_of_nil in Hr.
  - eapply step_schema_typed; [apply store_after_step|done].
Qed.

(** Every store the notebook's functions build holds at most one entity
    of a kind under a given identifier. *)
Lemma reachable_entity_count g l x :
  reachable g → entity_count l (key_of l) (Some x) g ≤ 1.
Proof.
  intros Hreach. revert l x. change (keys_unique g).
  induction Hreach as [|g op _ IH].
  - intros l x. unfold entity_count. simpl. lia.
  - eapply step_keys_unique; [apply store_after_step|done].
Qed.

Lemma reachable_store_after_all g ops :
  reachable g → reachable (store_after_all g ops).
Proof.
  revert g. induction ops as [|op ops IH]; intros g Hg; [done|].
  simpl. apply IH. by constructor.
Qed.

End invariants.

Lemma upsert_target_key op l k v :
  upsert_target op = Some (l, k, v) → k = key_of l.
Proof. destruct op; simpl; intros Heq; try discriminate; by simplify_eq. Qed.


(** * The workload query: grouping, counting, ordering *)

Section grouping.
Implicit Types (k : Param) (acc : list WorkloadRow) (keys : list Param).

Lemma row_count_count_row k k' acc :
  row_count k' (count_row k acc)
  = if decide (k = k') then S (row_count k acc) else row_count k' acc.
Proof.
  induction acc as [|r acc IH]; simpl.
  - repeat case_decide; congruence.
  - destruct (decide (wl_doctor r = k)) as [Heq|Hne]; simpl.
    + repeat case_decide; congruence.
    + rewrite IH. repeat case_decide; congruence.
Qed.

Lemma row_count_group_count_aux keys acc k :
  row_count k (foldl (λ acc k, count_row k acc) acc keys)
  = row_count k acc + length (filter (λ x, x = k) keys).
Proof.
  revert acc. induction keys as [|k' keys IH]; intros acc.
  { rewrite filter_nil. simpl. lia. }
  cbn [foldl]. rewrite IH, row_count_count_row, filter_cons.
  repeat case_decide; subst; simpl; try congruence; lia.
Qed.

Lemma row_count_group_count keys k :
  row_count k (group_count keys) = length (filter (λ x, x = k) keys).
Proof. unfold group_count. by rewrite row_count_group_count_aux. Qed.

Lemma count_row_keys k acc :
  ∀ k', k' ∈ wl_doctor <$> count_row k acc → k' = k ∨ k' ∈ wl_doctor <$> acc.
Proof.
  induction acc as [|r acc IH]; simpl; intros k'.
  - rewrite list_elem_of_singleton. by left.
  - destruct (decide (wl_doctor r = k)) as [Heq|Hne]; cbn [fmap list_fmap].
    + rewrite !elem_of_cons. simpl. tauto.
    + rewrite !elem_of_cons. intros [->|Hin]; [by right; left|].
      destruct (IH _ Hin); [by left|by right; right].
Qed.

Lemma count_row_ok k acc : groups_ok acc → groups_ok (count_row k acc).
Proof.
  intros [Hnd Hpos]. induction acc as [|r acc IH]; simpl.
  - split; [apply NoDup_singleton|]. repeat constructor.
  - apply NoDup_cons in Hnd as [Hnotin Hnd].
    apply Forall_cons in Hpos as [Hr Hpos].
    destruct (decide (wl_doctor r = k)) as [Heq|Hne].
    + split; cbn [fmap list_fmap wl_doctor].
      * apply NoDup_cons. by rewrite <- Heq.
      * constructor; [simpl; lia|done].
    + destruct (IH Hnd Hpos) as [Hnd' Hpos']. split; cbn [fmap list_fmap].
      * apply NoDup_cons. split; [|done]. intros Hin.
        destruct (count_row_keys _ _ _ Hin); [congruence|done].
      * by constructor.
Qed.

Lemma group_count_ok keys : groups_ok (group_count keys).
Proof.
  unfold group_count.
  assert (groups_ok []) as Hnil by (split; constructor).
  revert Hnil. generalize (@nil WorkloadRow).
  induction keys as [|k keys IH]; intros acc Hacc; simpl; [done|].
  apply IH. by apply count_row_ok.
Qed.

Lemma row_count_notin k acc : k ∉ wl_doctor <$> acc → row_count k acc = 0.
Proof.
  induction acc as [|r acc IH]; [done|]. cbn [fmap list_fmap].
  rewrite not_elem_of_cons. intros [Hne Hnotin]. simpl.
  case_decide; [congruence|by apply IH].
Qed.

Lemma elem_of_groups k c acc :
  groups_ok acc →
  mkWorkloadRow k c ∈ acc ↔ c = row_count k acc ∧ 0 < c.
Proof.
  intros [Hnd Hpos]. induction acc as [|r acc IH]; simpl.
  - split; [intros Hin; by apply not_elem_of_nil in Hin|lia].
  - cbn [fmap list_fmap] in Hnd. apply NoDup_cons in Hnd as [Hnotin Hnd].
    apply Forall_cons in Hpos as [Hr Hpos].
    rewrite elem_of_cons, (IH Hnd Hpos).
    destruct (decide (wl_doctor r = k)) as [<-|Hne].
    + rewrite (row_count_notin _ _ Hnotin). destruct r as [k' c']. simpl in *.
      split; [|intros [-> _]; by left].
      intros [[= ->]|[-> ?]]; [done|lia].
    + split; [|intros ?; by right].
      intros [Heq|?]; [|done]. subst r. by destruct Hne.
Qed.

End grouping.

Section workload_facts.
Implicit Types (g : Graph) (k : Param).

Lemma doctor_rows_filter g c k (rs : list Rel) :
  length (filter (λ x, x = k) (r ← rs; a ← node_at g (rel_src r); [c]))
  = if decide (c = k)
    then length (filter (λ r, is_Some (nodes g !! rel_src r)) rs)
    else 0.
Proof.
  induction rs as [|r rs IH]; [by case_decide|].
  rewrite bind_cons, filter_app, length_app, IH, filter_cons.
  unfold node_at. destruct (nodes g !! rel_src r) as [n|] eqn:Hn; simpl.
  - rewrite filter_cons, filter_nil.
    destruct (decide (is_Some (Some n))) as [_|Hno]; [|by destruct Hno].
    repeat case_decide; simpl; congruence.
  - destruct (decide (is_Some (@None Node))) as [[? ?]|_]; [done|].
    by case_decide.
Qed.

Lemma workload_matches_count_aux g k (ds : list nat) :
  length (filter (λ x, x = k)
            (d ← ds; dn ← node_at g d; r ← in_rels WITH_DOCTOR d (rels g);
             a ← node_at g (rel_src r); [prop dn "name"]))
  = sum_list (doctor_appointments g <$> filter (λ d, name_at g d = Some k) ds).
Proof.
  induction ds as [|d ds IH]; [done|].
  rewrite bind_cons, filter_app, length_app, IH, filter_cons.
  unfold name_at. change (node_at g d) with (option_list (nodes g !! d)).
  destruct (nodes g !! d) as [dn|]; cbn [fmap option_fmap option_map].
  - change (option_list (Some dn)) with [dn].
    rewrite bind_singleton, doctor_rows_filter.
    destruct (decide (prop dn "name" = k)) as [Heq|Hne].
    + rewrite decide_True by congruence. done.
    + rewrite decide_False by congruence. done.
  - change (option_list (@None Node)) with (@nil Node).
    change (@nil Node ≫= ?f) with (@nil Param).
    rewrite filter_nil. by case_decide.
Qed.

Lemma workload_matches_count g k :
  length (filter (λ x, x = k) (workload_matches g)) = name_appointments g k.
Proof. apply workload_matches_count_aux. Qed.

#[local] Instance by_appointments_desc_total : Total by_appointments_desc.
Proof. intros x y. unfold by_appointments_desc. lia. Qed.

#[local] Instance by_appointments_desc_trans : Transitive by_appointments_desc.
Proof. intros x y z. unfold by_appointments_desc. lia. Qed.

Lemma doctor_workload_rows_returned g :
  get_doctor_workload g (doctor_workload_rows g).
Proof.
  split.
  - apply merge_sort_Permutation.
  - apply (Sorted_merge_sort _).
Qed.

Lemma workload_rows_elem g rows k c :
  get_doctor_workload g rows →
  mkWorkloadRow k c ∈ rows ↔ c = name_appointments g k ∧ 0 < c.
Proof.
  intros [Hperm _]. rewrite Hperm.
  rewrite (elem_of_groups _ _ _ (group_count_ok _)).
  by rewrite row_count_group_count, workload_matches_count.
Qed.

End workload_facts.

Lemma same_name_doctors_rows :
  doctor_workload_rows same_name_doctors = [mkWorkloadRow (str "Dr. Lee") 2].
Proof. by vm_compute. Qed.

(** C4, as stated, fails: the statement groups by [d.name], so two
    doctors of the same name, with one appointment each, come back as one
    row with count 2, and neither has a row with its own count 1. *)
Lemma workload_groups_by_name : ¬ workload_row_per_doctor.
Proof.
  intros Hspec.
  pose proof (Hspec same_name_doctors _
                (doctor_workload_rows_returned same_name_doctors) 0) as Hrow.
  rewrite same_name_doctors_rows in Hrow.
  assert (nodes same_name_doctors !! 0
          = Some (mkNode Doctor {[ "doctor_id" := VStr "D001";
                                   "name" := VStr "Dr. Lee";
                                   "specialty" := VStr "Cardiology" ]})) as Hn
    by by vm_compute.
  specialize (Hrow _ Hn eq_refl).
  replace (doctor_appointments same_name_doctors 0) with 1 in Hrow
    by by vm_compute.
  specialize (Hrow (Nat.lt_0_1)).
  apply list_elem_of_singleton in Hrow. discriminate Hrow.
Qed.

(** C4, amended.  Whatever list [get_doctor_workload] returns holds one
    row per distinct name borne by doctors with at least one appointment,
    its count being the appointments of all the doctors of that name
    together; names borne only by doctors without appointments are absent;
    the rows are in descending order of count; a doctor whose name no
    other doctor bears has a row of its own with its own count when it has
    an appointment, and none otherwise; the sorted enumeration is one list
    it may return; and in the store the notebook populates, with two
    doctors of different names and one appointment each, it returns both
    with count 1, in either order. *)
Theorem doctor_workload_spec :
  (∀ g rows,
     get_doctor_workload g rows →
     (∀ k c, mkWorkloadRow k c ∈ rows ↔ c = name_appointments g k ∧ 0 < c)
     ∧ NoDup (wl_doctor <$> rows)
     ∧ StronglySorted by_appointments_desc rows
     ∧ (∀ d nd,
          nodes g !! d = Some nd → node_label nd = Doctor →
          doctors_named g (prop nd "name") = [d] →
          (0 < doctor_appointments g d →
           mkWorkloadRow (prop nd "name") (doctor_appointments g d) ∈ rows)
          ∧ (doctor_appointments g d = 0 →
             ∀ c, mkWorkloadRow (prop nd "name") c ∉ rows)))
  ∧ (∀ g, get_doctor_workload g (doctor_workload_rows g))
  ∧ (∀ rows,
       get_doctor_workload populated rows
       ↔ rows = [row_Brown; row_Doe] ∨ rows = [row_Doe; row_Brown]).
Proof.
  split; [|split].
  - intros g rows Hrows. split; [|split; [|split]].
    + intros k c. by apply workload_rows_elem.
    + destruct Hrows as [Hperm _]. rewrite Hperm.
      apply group_count_ok.
    + destruct Hrows as [_ Hsorted]. apply Sorted_StronglySorted; [|done].
      intros x y z. unfold by_appointments_desc. lia.
    + intros d nd Hnd Hl Hnamed.
      assert (name_appointments g (prop nd "name") = doctor_appointments g d)
        as Htotal.
      { unfold name_appointments. rewrite Hnamed. simpl. lia. }
      split.
      * intros Hpos. apply (workload_rows_elem g); [done|]. by rewrite Htotal.
      * intros Hzero c Hin. apply (workload_rows_elem g) in Hin; [|done].
        rewrite Htotal in Hin. lia.
  - apply doctor_workload_rows_returned.
  - intros rows. unfold get_doctor_workload.
    replace (group_count (workload_matches populated))
      with [row_Brown; row_Doe] by by vm_compute.
    split.
    + intros [Hperm _]. symmetry in Hperm.
      by apply Permutation_length_2_inv in Hperm.
    + intros [-> | ->]; (split; [|repeat constructor]);
        [done|apply perm_swap].
Qed.

(** * Upserts: which attributes a call writes *)

Lemma assigned_elem (sets : list (string * Param)) k v :
  NoDup sets.*1 → (k, v) ∈ sets → assigned sets k = Some v.
Proof.
  induction sets as [|[k' p] rest IH]; intros Hnd Hin.
  - by apply not_elem_of_nil in Hin.
  - cbn [fmap list_fmap fst] in Hnd. apply NoDup_cons in Hnd as [Hnotin Hnd].
    apply elem_of_cons in Hin as [[= <- <-]|Hin]; simpl.
    + rewrite (assigned_None rest k Hnotin). by rewrite decide_True.
    + by rewrite (IH Hnd Hin).
Qed.

Lemma upsert_sets_NoDup op : NoDup (upsert_sets op).*1.
Proof.
  destruct op; cbn [upsert_sets fmap list_fmap fst];
    repeat (apply NoDup_cons; split;
            [rewrite ?not_elem_of_cons; repeat split;
             first [discriminate|apply not_elem_of_nil]|]);
    apply NoDup_nil_2.
Qed.

Lemma appointment_setup_patient :
  nodes appointment_setup !! 0
  = Some (mkNode Patient {[ "patient_id" := VStr "P001";
                            "name" := VStr "Alice Smith";
                            "age" := VInt 30;
                            "contact" := VStr "555-1234" ]}).
Proof. by vm_compute. Qed.

(** C7, as stated, fails.  A call of [create_patient] that leaves
    arguments out raises TypeError; and a call that passes [None] for the
    name and the contact of the existing patient P001 removes both
    properties instead of keeping them. *)
Lemma partial_upsert_removes_unmentioned :
  ¬ partial_upsert_keeps_unmentioned
  ∧ call_create_patient appointment_setup [str "P001"; str "Alice Smith"]
    = inl (TypeError "create_patient")
  ∧ (∃ g', create_patient appointment_setup (str "P001") None (int 31) None
           = inr g'
           ∧ (nodes g' !! 0 ≫= λ n, prop n "name") = None
           ∧ (nodes appointment_setup !! 0 ≫= λ n, prop n "name")
             = str "Alice Smith").
Proof.
  split; [|split].
  - intros Hspec.
    destruct (Hspec appointment_setup (str "P001") None (int 31) None 0 _
                appointment_setup_patient eq_refl)
      as (g' & n' & Hg' & Hn' & Hname & _).
    specialize (Hname eq_refl).
    revert Hg' Hn' Hname. vm_compute. intros [= <-] [= <-]. discriminate.
  - done.
  - eexists. split; [done|]. split; by vm_compute.
Qed.

(** C7, amended.  Each create function takes every attribute of its kind
    and writes them all: for an identifier that is a value, and arguments
    the driver can send (no integer outside 64 bits), the call raises
    nothing; on an entity that exists it gives each attribute of the SET
    list the value of the call (a [None] removes the property) and leaves
    every property outside the list, such as the identifier or
    [reminder_sent], as it was; every other node and every relationship
    is untouched. *)
Theorem upsert_overwrites_its_attributes g op l k x :
  upsert_target op = Some (l, k, Some x) →
  packed op = true →
  ∃ g',
    transaction g op = inr g'
    ∧ rels g' = rels g
    ∧ ∀ i n, nodes g !! i = Some n →
        ∃ n', nodes g' !! i = Some n'
              ∧ node_label n' = node_label n
              ∧ (∀ k', k' ∉ (upsert_sets op).*1 → prop n' k' = prop n k')
              ∧ (is_entity l k (Some x) n →
                 ∀ k' v, (k', v) ∈ upsert_sets op → prop n' k' = v)
              ∧ (¬ is_entity l k (Some x) n → n' = n).
Proof.
  intros Ht Hp.
  destruct (transaction_upsert g op l k (Some x) Hp Ht) as [-> Hk].
  destruct (existsb (has_key l k (Some x)) (nodes g)) eqn:Hex.
  - rewrite merge_set_match by done. eexists. split; [done|].
    cbn [nodes rels]. split; [done|]. intros i n Hn.
    destruct (set_where_frame (has_key l k (Some x)) (upsert_sets op)
                (nodes g) i n Hn) as (n' & Hn' & Hl & Hother & Hmiss & Hhit).
    exists n'. repeat (split; [done|]). split.
    + intros Hkey%has_key_spec k' v Hin. rewrite (Hhit Hkey).
      unfold prop, set_node. cbn [node_props]. rewrite lookup_apply_sets.
      by rewrite (assigned_elem _ _ _ (upsert_sets_NoDup op) Hin).
    + intros Hkey. apply Hmiss. apply not_true_is_false.
      by intros ?%has_key_spec.
  - rewrite merge_set_create by done. eexists. split; [done|].
    cbn [nodes rels]. split; [done|]. intros i n Hn. exists n.
    split; [|split; [done|split; [done|split; [|done]]]].
    + rewrite lookup_app_l; [done|]. by eapply lookup_lt_Some.
    + intros Hkey%has_key_spec.
      rewrite (existsb_false_Forall _ _ Hex n) in Hkey; [done|].
      apply list_elem_of_lookup. eauto.
Qed.

(** * The flow: nothing is deleted *)

Lemma trace_step g ops i g1 g2 :
  trace g ops !! i = Some g1 → trace g ops !! S i = Some g2 →
  ∃ op, g2 = store_after g1 op.
Proof.
  revert g i. induction ops as [|op ops IH]; intros g i.
  - destruct i; simpl; intros; discriminate.
  - destruct i as [|i]; cbn [trace lookup list_lookup].
    + intros [= <-]. destruct ops; cbn [trace lookup list_lookup];
        intros [= <-]; by exists op.
    + apply IH.
Qed.

Lemma run_cell_store_after_all g ops g' :
  run_cell g ops = inr g' → store_after_all g ops = g'.
Proof.
  revert g. induction ops as [|op ops IH]; intros g; simpl.
  - by intros [= ->].
  - unfold store_after. destruct (transaction g op) as [e|g1]; [done|].
    apply IH.
Qed.

(** C8. No transaction deletes anything: after each one every node is
    still at its position as the same entity (kind and identifier) and
    every relationship is still stored, so the same holds between any two
    successive stores of a run, the notebook's included, which raises no
    error.  A transaction that is neither a create nor a link (what comes
    after the population) leaves the relationships, the number of nodes,
    the kinds and every property other than [reminder_sent] as they were,
    and leaves the whole store as it was unless it is
    [set_appointment_reminder]. *)
Theorem nothing_deleted :
  (∀ g op, grows g (store_after g op))
  ∧ (∀ g ops i g1 g2,
       trace g ops !! i = Some g1 → trace g ops !! S i = Some g2 →
       grows g1 g2)
  ∧ run_cell empty_graph notebook = inr (store_after_all empty_graph notebook)
  ∧ (∀ g op,
       is_population op = false →
       rels (store_after g op) = rels g
       ∧ length (nodes (store_after g op)) = length (nodes g)
       ∧ (∀ i n, nodes g !! i = Some n →
            ∃ n', nodes (store_after g op) !! i = Some n'
                  ∧ node_label n' = node_label n
                  ∧ ∀ k, k ≠ "reminder_sent" → prop n' k = prop n k)
       ∧ ((∀ a r, op ≠ SetAppointmentReminder a r) → store_after g op = g))
  ∧ Forall (λ op, is_population op = false) after_population.
Proof.
  split; [|split; [|split; [|split]]].
  - intros g op. apply step_grows, store_after_step.
  - intros g ops i g1 g2 H1 H2.
    destruct (trace_step g ops i g1 g2 H1 H2) as [op ->].
    apply step_grows, store_after_step.
  - by vm_compute.
  - intros g op Hpop.
    destruct (packed op) eqn:Hp.
    2:{ rewrite store_after_overflow by done.
        repeat split; try done. intros i n Hn. by exists n. }
    unfold store_after. rewrite transaction_packed by done. clear Hp.
    destruct op; try discriminate Hpop; cbn [run_statement].
    + unfold set_appointment_reminder, match_set. cbn [nodes rels].
      split; [done|]. split; [apply set_where_length|]. split.
      * intros i n Hn.
        destruct (set_where_frame
                    (has_key Appointment "appointment_id" appointment_id)
                    [("reminder_sent", reminder_sent)] (nodes g) i n Hn)
          as (n' & Hn' & Hl & Hother & _).
        exists n'. split; [done|]. split; [done|]. intros k Hk.
        apply Hother. cbn [fmap list_fmap fst]. rewrite not_elem_of_cons.
        split; [done|apply not_elem_of_nil].
      * intros Hne. by destruct (Hne appointment_id reminder_sent).
    + repeat split; try done. intros i n Hn. by exists n.
    + repeat split; try done. intros i n Hn. by exists n.
    + repeat split; try done. intros i n Hn. by exists n.
  - repeat constructor.
Qed.

(** * The metrics flow *)

(** C9. The derived field of every record is its payment minus its cost
    (so cost plus gap gives the payment back); the derived column leaves
    the records as they are; and a record with cost 12000 and payment
    13500 has the gap 1500. *)
Theorem revenue_gap_spec :
  (∀ r, Metrics.Revenue_Gap r
        = (Metrics.Payment_Per_Patient r - Metrics.Cost_Per_Patient r)%Z
        ∧ (Metrics.Cost_Per_Patient r + Metrics.Revenue_Gap r
           = Metrics.Payment_Per_Patient r)%Z)
  ∧ (∀ table,
       (Metrics.with_revenue_gap table).*1 = table
       ∧ (Metrics.with_revenue_gap table).*2 = Metrics.Revenue_Gap <$> table)
  ∧ (∀ r, Metrics.Cost_Per_Patient r = 12000%Z →
          Metrics.Payment_Per_Patient r = 13500%Z →
          Metrics.Revenue_Gap r = 1500%Z)
  ∧ Metrics.Revenue_Gap Metrics.example_record = 1500%Z.
Proof.
  split; [|split; [|split]].
  - intros r. unfold Metrics.Revenue_Gap. lia.
  - intros table. unfold Metrics.with_revenue_gap.
    rewrite <- !list_fmap_compose. split; [apply list_fmap_id|done].
  - intros r Hc Hp. unfold Metrics.Revenue_Gap. lia.
  - done.
Qed.

(** * The theorems at the notebook's data *)

(** [upsert_idempotent] for the first create of the notebook, on the
    empty store. *)
Lemma upsert_idempotent_witness :
  upsert_target
    (CreatePatient (str "P001") (str "Alice Smith") (int 30) (str "555-1234"))
  = Some (Patient, "patient_id", str "P001")
  ∧ packed
      (CreatePatient (str "P001") (str "Alice Smith") (int 30) (str "555-1234"))
    = true
  ∧ ∃ g1,
      transaction empty_graph
        (CreatePatient (str "P001") (str "Alice Smith") (int 30)
                       (str "555-1234")) = inr g1
      ∧ transaction g1
          (CreatePatient (str "P001") (str "Alice Smith") (int 30)
                         (str "555-1234")) = inr g1
      ∧ (entity_count Patient "patient_id" (str "P001") empty_graph ≤ 1 →
         entity_count Patient "patient_id" (str "P001") g1 = 1).
Proof.
  split; [reflexivity|]. split; [reflexivity|].
  apply (upsert_idempotent empty_graph
           (CreatePatient (str "P001") (str "Alice Smith") (int 30)
                          (str "555-1234"))
           Patient "patient_id" (str "P001") eq_refl);
    reflexivity.
Defined.

(** [link_entities] for the first link of the notebook, on the store the
    creates leave: P001 is at position 0, A001 at position 4, no
    relationship is stored yet, and the link stores the one between
    them. *)
Lemma link_entities_witness :
  link_target (LinkPatientAppointment (str "P001") (str "A001"))
  = Some (HAS_APPOINTMENT, (Patient, "patient_id", str "P001"),
          (Appointment, "appointment_id", str "A001"))
  ∧ packed (LinkPatientAppointment (str "P001") (str "A001")) = true
  ∧ rels (store_after_all empty_graph (take 6 populating_database)) = []
  ∧ ∃ g',
      transaction (store_after_all empty_graph (take 6 populating_database))
        (LinkPatientAppointment (str "P001") (str "A001")) = inr g'
      ∧ mkRel HAS_APPOINTMENT 0 4 ∈ rels g'.
Proof.
  split; [reflexivity|]. split; [reflexivity|].
  split; [vm_compute; reflexivity|].
  destruct (link_entities
              (store_after_all empty_graph (take 6 populating_database))
              (LinkPatientAppointment (str "P001") (str "A001"))
              HAS_APPOINTMENT Patient "patient_id" (str "P001")
              Appointment "appointment_id" (str "A001") eq_refl)
    as (_ & Hsent).
  destruct (Hsent eq_refl) as (g' & Htx & _ & _ & Hedge & _).
  exists g'. split; [exact Htx|].
  apply (Hedge 0 4
           (mkNode Patient {[ "patient_id" := VStr "P001";
                              "name" := VStr "Alice Smith";
                              "age" := VInt 30;
                              "contact" := VStr "555-1234" ]})
           (mkNode Appointment {[ "appointment_id" := VStr "A001";
                                  "date" := VStr "2023-10-15";
                                  "time" := VStr "10:00" ]})).
  - vm_compute. reflexivity.
  - split; [reflexivity|]. split; [eexists; reflexivity|].
    vm_compute. reflexivity.
  - vm_compute. reflexivity.
  - split; [reflexivity|]. split; [eexists; reflexivity|].
    vm_compute. reflexivity.
Defined.

(** [set_appointment_reminder_spec] for the notebook's call: A001, at
    position 4 of the populated store, reads [reminder_sent = false]
    afterwards. *)
Lemma set_appointment_reminder_witness :
  ∃ n', nodes (set_appointment_reminder populated (str "A001") (boolean false))
          !! 4 = Some n'
        ∧ prop n' "reminder_sent" = boolean false.
Proof.
  destruct (set_appointment_reminder_spec populated (str "A001") false)
    as (_ & Hsent).
  destruct (Hsent eq_refl) as (_ & Hset & _).
  destruct (Hset 4 (mkNode Appointment
                      {[ "appointment_id" := VStr "A001";
                         "date" := VStr "2023-10-15";
                         "time" := VStr "10:00" ]}))
    as (n' & Hn' & Hflag & _).
  - vm_compute. reflexivity.
  - split; [reflexivity|]. split; [eexists; reflexivity|].
    vm_compute. reflexivity.
  - exists n'. split; assumption.
Defined.



(** [doctorless_appointment_omitted] for the patient linked to A001 and to
    the doctor-less A003. *)
Lemma doctorless_appointment_omitted_witness :
  get_patient_appointments doctorless_appointment (str "P001") [row_A001]
  ∧ ar_appointment_id row_A001 ≠ str "A003"
  ∧ ∃ p a' d, a' ≠ 3
      ∧ appointment_path doctorless_appointment (str "P001") p a' d row_A001.
Proof.
  destruct doctorless_appointment_omitted as (Hgen & _ & _ & Hnone & Hrows).
  assert (get_patient_appointments doctorless_appointment (str "P001")
            [row_A001]) as H by (apply Hrows; reflexivity).
  split; [exact H|]. split; [discriminate|].
  destruct (Hgen _ _ _ H) as (Hnode & _).
  apply (Hnode 3 Hnone row_A001). left.
Defined.

(** [doctor_workload_spec] for the populated store. *)
Lemma doctor_workload_spec_witness :
  get_doctor_workload populated [row_Brown; row_Doe]
  ∧ 1 = name_appointments populated (str "Dr. Emily Brown").
Proof.
  destruct doctor_workload_spec as (Hgen & _ & Hpop).
  assert (get_doctor_workload populated [row_Brown; row_Doe]) as H
    by (apply Hpop; left; reflexivity).
  split; [exact H|].
  destruct (Hgen _ _ H) as (Helem & _).
  apply (Helem (str "Dr. Emily Brown") 1). left.
Defined.

(** [upsert_overwrites_its_attributes] for a second upsert of P001 after
    the setup of the example. *)
Lemma upsert_overwrites_its_attributes_witness :
  upsert_target
    (CreatePatient (str "P001") (str "Alice Jones") (int 31) (str "555-0000"))
  = Some (Patient, "patient_id", str "P001")
  ∧ packed
      (CreatePatient (str "P001") (str "Alice Jones") (int 31) (str "555-0000"))
    = true
  ∧ ∃ g',
      transaction appointment_setup
        (CreatePatient (str "P001") (str "Alice Jones") (int 31)
                       (str "555-0000")) = inr g'
      ∧ rels g' = rels appointment_setup.
Proof.
  split; [reflexivity|]. split; [reflexivity|].
  destruct (upsert_overwrites_its_attributes appointment_setup
              (CreatePatient (str "P001") (str "Alice Jones") (int 31)
                             (str "555-0000"))
              Patient "patient_id" (VStr "P001") eq_refl eq_refl)
    as (g' & Htx & Hrels & _).
  exists g'. split; assumption.
Defined.

(** [nothing_deleted] for the reminder update of the notebook. *)
Lemma nothing_deleted_witness :
  is_population (SetAppointmentReminder (str "A001") (boolean false)) = false
  ∧ rels (store_after populated
            (SetAppointmentReminder (str "A001") (boolean false)))
    = rels populated
  ∧ grows populated
      (store_after populated
         (SetAppointmentReminder (str "A001") (boolean false))).
Proof.
  destruct nothing_deleted as (Hgrows & _ & _ & Hafter & _).
  split; [reflexivity|]. split.
  - apply (Hafter populated
             (SetAppointmentReminder (str "A001") (boolean false)) eq_refl).
  - apply Hgrows.
Defined.

(** [revenue_gap_spec] for the README's example record. *)
Lemma revenue_gap_spec_witness :
  Metrics.Cost_Per_Patient Metrics.example_record = 12000%Z
  ∧ Metrics.Payment_Per_Patient Metrics.example_record = 13500%Z
  ∧ Metrics.Revenue_Gap Metrics.example_record = 1500%Z.
Proof.
  destruct revenue_gap_spec as (_ & _ & Hexample & _).
  split; [reflexivity|]. split; [reflexivity|].
  apply Hexample; reflexivity.
Defined.

(** * Every transaction can be repeated *)

Section repeat_facts.
Implicit Types (g : Graph) (rs : list Rel) (pairs : list (nat * nat)).

Lemma merge_rel_fold_present t pairs rs :
  (∀ ab, ab ∈ pairs → mkRel t ab.1 ab.2 ∈ rs) →
  foldl (merge_rel t) rs pairs = rs.
Proof.
  induction pairs as [|ab pairs IH]; intros Hall; [done|].
  cbn [foldl]. unfold merge_rel at 2.
  rewrite bool_decide_eq_true_2 by (apply Hall; by left).
  apply IH. intros ab' Hab'. apply Hall. by right.
Qed.

Lemma match_merge_rel_idemp t la ka va lb kb vb g :
  match_merge_rel t la ka va lb kb vb (match_merge_rel t la ka va lb kb vb g)
  = match_merge_rel t la ka va lb kb vb g.
Proof.
  unfold match_merge_rel. cbn [nodes rels]. f_equal.
  apply merge_rel_fold_present. intros ab Hab.
  apply merge_rel_fold_elem. right. by exists ab.
Qed.

Lemma match_set_idemp l k v sets g :
  k ∉ sets.*1 →
  match_set l k v sets (match_set l k v sets g) = match_set l k v sets g.
Proof.
  intros Hk. unfold match_set. cbn [nodes rels]. by rewrite set_where_idemp.
Qed.

End repeat_facts.

(** X1. Every transaction of the notebook can be repeated: when a call
    succeeds, the same call on the store it left succeeds again and
    returns that very store.  In particular a link called twice stores one
    relationship, not two, and a reminder update called twice changes
    nothing the second time. *)
Theorem transaction_repeatable g op g1 :
  transaction g op = inr g1 → transaction g1 op = inr g1.
Proof.
  intros [Hp Hrun]%transaction_inr_packed.
  rewrite transaction_packed by done. revert Hrun. clear Hp.
  destruct (upsert_target op) as [[[l k] v]|] eqn:Hup.
  - destruct (statement_upsert g op l k v Hup) as [Hg Hk].
    destruct (statement_upsert g1 op l k v Hup) as [Hg1 _].
    rewrite Hg, Hg1. destruct v as [x|]; [|done].
    by apply merge_set_idemp.
  - destruct op; try discriminate Hup; cbn [run_statement]; intros [= <-];
      try done; f_equal.
    + apply match_merge_rel_idemp.
    + apply match_merge_rel_idemp.
    + apply match_merge_rel_idemp.
    + apply match_merge_rel_idemp.
    + apply match_set_idemp. cbn [fmap list_fmap fst].
      rewrite not_elem_of_cons. split; [done|apply not_elem_of_nil].
Qed.

(** [transaction_repeatable] for the first link of the notebook, on the
    store the creates leave. *)
Lemma transaction_repeatable_witness :
  transaction (store_after_all empty_graph (take 6 populating_database))
    (LinkPatientAppointment (str "P001") (str "A001"))
  = inr (store_after_all empty_graph (take 7 populating_database))
  ∧ transaction (store_after_all empty_graph (take 7 populating_database))
      (LinkPatientAppointment (str "P001") (str "A001"))
    = inr (store_after_all empty_graph (take 7 populating_database)).
Proof.
  assert (transaction (store_after_all empty_graph (take 6 populating_database))
            (LinkPatientAppointment (str "P001") (str "A001"))
          = inr (store_after_all empty_graph (take 7 populating_database)))
    as Hfirst by (vm_compute; reflexivity).
  split; [exact Hfirst|].
  exact (transaction_repeatable _ _ _ Hfirst).
Defined.

(** * Invariants of the stores the notebook builds *)

Section wellformed.
Implicit Types (g : Graph) (rs : list Rel) (sets : list (string * Param)).

Lemma merge_rel_fold_NoDup t pairs rs :
  NoDup rs → NoDup (foldl (merge_rel t) rs pairs).
Proof.
  revert rs. induction pairs as [|ab pairs IH]; intros rs Hnd; [done|].
  cbn [foldl]. apply IH. unfold merge_rel. case_bool_decide as Hin; [done|].
  apply NoDup_app. split; [done|]. split; [|apply NoDup_singleton].
  intros r Hr ->%list_elem_of_singleton. done.
Qed.

Lemma step_NoDup_rels g g' : store_step g g' → NoDup (rels g) → NoDup (rels g').
Proof.
  intros [|l k v sets Hk|l x sets Hk Hex|t ka va kb vb] Hnd;
    cbn [rels match_merge_rel]; try done.
  by apply merge_rel_fold_NoDup.
Qed.

Lemma has_identifier_set_node sets n :
  (∀ l', key_of l' ∉ sets.*1) → has_identifier n → has_identifier (set_node sets n).
Proof.
  intros Hk. unfold has_identifier, prop, set_node. cbn [node_label node_props].
  by rewrite lookup_apply_sets_other.
Qed.

Lemma step_has_identifier g g' :
  store_step g g' →
  Forall has_identifier (nodes g) → Forall has_identifier (nodes g').
Proof.
  intros [|l k v sets Hk|l x sets Hk Hex|t ka va kb vb] Hall;
    cbn [nodes match_merge_rel]; try done.
  - unfold set_where. apply Forall_fmap. eapply Forall_impl; [exact Hall|].
    intros n Hn. simpl. destruct (has_key l k v n); [|done].
    by apply has_identifier_set_node.
  - apply Forall_app. split; [done|]. apply Forall_singleton.
    apply has_identifier_set_node; [done|].
    unfold has_identifier, prop. cbn [node_label node_props].
    rewrite lookup_singleton_eq. by eexists.
Qed.

Lemma set_where_labels (P : Node → bool) (Q : Label → Prop) sets ns :
  Forall (λ n, Q (node_label n)) ns →
  Forall (λ n, Q (node_label n)) (set_where P sets ns).
Proof.
  intros Hall. unfold set_where. apply Forall_fmap.
  eapply Forall_impl; [exact Hall|]. intros n Hn. simpl. by destruct (P n).
Qed.

Lemma merge_set_labels (Q : Label → Prop) l k v sets g g' :
  Q l → merge_set l k v sets g = inr g' →
  Forall (λ n, Q (node_label n)) (nodes g) →
  Forall (λ n, Q (node_label n)) (nodes g').
Proof.
  intros Hl. unfold merge_set. destruct v as [x|]; [|done].
  destruct (existsb _ _); intros [= <-] Hall; cbn [nodes].
  - by apply set_where_labels.
  - apply Forall_app. split; [done|]. by apply Forall_singleton.
Qed.

Lemma merge_set_rels l k v sets g g' :
  merge_set l k v sets g = inr g' → rels g' = rels g.
Proof.
  unfold merge_set. destruct v as [x|]; [|done].
  by destruct (existsb _ _); intros [= <-].
Qed.

Lemma upsert_target_kind op l k v :
  upsert_target op = Some (l, k, v) → l ≠ Department.
Proof. destruct op; simpl; intros Heq; try discriminate; by simplify_eq. Qed.

Lemma link_target_type op t a b :
  link_target op = Some (t, a, b) → t ≠ WORKS_IN.
Proof. destruct op; simpl; intros Heq; try discriminate; by simplify_eq. Qed.

Lemma store_after_no_department g op :
  Forall (λ n, node_label n ≠ Department) (nodes g) →
  Forall (λ n, node_label n ≠ Department) (nodes (store_after g op)).
Proof.
  intros Hall.
  destruct (packed op) eqn:Hp; [|by rewrite store_after_overflow].
  unfold store_after. rewrite transaction_packed by done. clear Hp.
  destruct (upsert_target op) as [[[l k] v]|] eqn:Hup.
  - destruct (statement_upsert g op l k v Hup) as [-> _].
    destruct (merge_set l k v (upsert_sets op) g) as [e|g'] eqn:Hg; [done|].
    eapply (merge_set_labels (λ l', l' ≠ Department)); [|exact Hg|done].
    by eapply upsert_target_kind.
  - destruct op; try discriminate Hup; cbn [run_statement]; try done.
    unfold set_appointment_reminder, match_set. cbn [nodes].
    by apply (set_where_labels _ (λ l', l' ≠ Department)).
Qed.

Lemma store_after_no_works_in g op :
  Forall (λ r, rel_type r ≠ WORKS_IN) (rels g) →
  Forall (λ r, rel_type r ≠ WORKS_IN) (rels (store_after g op)).
Proof.
  intros Hall.
  destruct (packed op) eqn:Hp; [|by rewrite store_after_overflow].
  unfold store_after. rewrite transaction_packed by done. clear Hp.
  destruct (link_target op) as [[[t [[la ka] va]] [[lb kb] vb]]|] eqn:Hlink.
  - rewrite (statement_link g op t la ka va lb kb vb Hlink).
    unfold match_merge_rel. cbn [rels]. apply Forall_forall.
    intros r [Hr|(ab & _ & ->)]%merge_rel_fold_elem.
    + rewrite Forall_forall in Hall. by apply Hall.
    + cbn [rel_type]. by eapply link_target_type.
  - destruct (upsert_target op) as [[[l k] v]|] eqn:Hup.
    + destruct (statement_upsert g op l k v Hup) as [-> _].
      destruct (merge_set l k v (upsert_sets op) g) as [e|g'] eqn:Hg; [done|].
      by rewrite (merge_set_rels _ _ _ _ _ _ Hg).
    + destruct op; try discriminate Hup; try discriminate Hlink;
        cbn [run_statement]; done.
Qed.

End wellformed.

(** X2. Entities of the stores the notebook's functions build from an
    empty database: no two nodes of a kind carry the same identifier;
    every node carries the identifier of its kind, and looking that
    identifier up finds this node and no other; and no node is a
    Department (the schema names the kind, no function creates one). *)
Theorem reachable_entities g :
  reachable g →
  keys_unique g
  ∧ Forall has_identifier (nodes g)
  ∧ (∀ i n, nodes g !! i = Some n →
       ∃ x, prop n (key_of (node_label n)) = Some x
            ∧ match_idx (has_key (node_label n) (key_of (node_label n)) (Some x))
                (nodes g) = [i])
  ∧ Forall (λ n, node_label n ≠ Department) (nodes g).
Proof.
  intros Hreach.
  assert (Forall has_identifier (nodes g)) as Hids.
  { induction Hreach as [|g op _ IH]; [constructor|].
    eapply step_has_identifier; [apply store_after_step|done]. }
  assert (keys_unique g) as Huniq.
  { intros l x. by apply reachable_entity_count. }
  split; [done|]. split; [done|]. split.
  - intros i n Hn. rewrite Forall_forall in Hids.
    destruct (Hids n) as [x Hx]; [apply list_elem_of_lookup; eauto|].
    exists x. split; [done|].
    assert (i ∈ match_idx (has_key (node_label n) (key_of (node_label n))
                             (Some x)) (nodes g)) as Hi.
    { apply elem_of_match_idx. exists n. split; [done|]. by apply has_key_true. }
    specialize (Huniq (node_label n) x). unfold entity_count in Huniq.
    destruct (match_idx _ (nodes g)) as [|j [|j' rest]]; simpl in Huniq.
    + by apply not_elem_of_nil in Hi.
    + by apply list_elem_of_singleton in Hi as ->.
    + lia.
  - clear Huniq Hids. induction Hreach as [|g op _ IH]; [constructor|].
    by apply store_after_no_department.
Qed.

(** [reachable_entities] for the store the notebook populates. *)
Lemma reachable_entities_witness :
  reachable populated
  ∧ keys_unique populated
  ∧ Forall (λ n, node_label n ≠ Department) (nodes populated).
Proof.
  assert (reachable populated) as Hreach
    by (apply reachable_store_after_all; constructor).
  split; [exact Hreach|].
  destruct (reachable_entities populated Hreach) as (Huniq & _ & _ & Hdep).
  split; assumption.
Defined.

(** X3. Relationships of the stores the notebook's functions build from
    an empty database: each joins two nodes of the store, of the kinds the
    schema gives its type; none is stored twice; and none is a WORKS_IN
    (the schema names the type, no function creates one). *)
Theorem reachable_relationships g :
  reachable g →
  schema_typed g
  ∧ NoDup (rels g)
  ∧ Forall (λ r, rel_type r ≠ WORKS_IN) (rels g).
Proof.
  intros Hreach. split; [by apply reachable_schema_typed|].
  split; induction Hreach as [|g op _ IH]; try constructor.
  - eapply step_NoDup_rels; [apply store_after_step|done].
  - by apply store_after_no_works_in.
Qed.

(** [reachable_relationships] for the store the notebook populates. *)
Lemma reachable_relationships_witness :
  reachable populated
  ∧ NoDup (rels populated)
  ∧ Forall (λ r, rel_type r ≠ WORKS_IN) (rels populated).
Proof.
  assert (reachable populated) as Hreach
    by (apply reachable_store_after_all; constructor).
  split; [exact Hreach|].
  destruct (reachable_relationships populated Hreach) as (_ & Hnd & Hw).
  split; assumption.
Defined.

(** * Later writes replace earlier ones *)

Section overwrite_facts.
Implicit Types (g : Graph) (sets : list (string * Param)) (m : gmap string Value).

Lemma assigned_is_Some sets k : k ∈ sets.*1 → is_Some (assigned sets k).
Proof.
  induction sets as [|[k' p] rest IH]; cbn [fmap list_fmap fst].
  - intros Hin. by apply not_elem_of_nil in Hin.
  - intros Hin. simpl. destruct (assigned rest k) as [q|] eqn:Hrest; [by eexists|].
    apply elem_of_cons in Hin as [->|Hin].
    + rewrite decide_True by done. by eexists.
    + destruct (IH Hin) as [? ?]. discriminate.
Qed.

Lemma apply_sets_absorb sets1 sets2 m :
  sets1.*1 ⊆ sets2.*1 →
  apply_sets sets2 (apply_sets sets1 m) = apply_sets sets2 m.
Proof.
  intros Hsub. apply map_eq. intros k. rewrite !lookup_apply_sets.
  destruct (assigned sets2 k) as [q|] eqn:H2; [done|]. simpl.
  destruct (decide (k ∈ sets1.*1)) as [Hin|Hnotin].
  - destruct (assigned_is_Some sets2 k (Hsub _ Hin)) as [? ?]. congruence.
  - by rewrite assigned_None.
Qed.

Lemma set_node_absorb sets1 sets2 n :
  sets1.*1 ⊆ sets2.*1 →
  set_node sets2 (set_node sets1 n) = set_node sets2 n.
Proof.
  intros Hsub. unfold set_node. cbn [node_label node_props].
  by rewrite apply_sets_absorb.
Qed.

Lemma set_where_absorb l k v sets1 sets2 ns :
  k ∉ sets1.*1 → sets1.*1 ⊆ sets2.*1 →
  set_where (has_key l k v) sets2 (set_where (has_key l k v) sets1 ns)
  = set_where (has_key l k v) sets2 ns.
Proof.
  intros Hk Hsub. unfold set_where. rewrite <- list_fmap_compose.
  apply list_fmap_ext. intros i n _. simpl.
  destruct (has_key l k v n) eqn:Hn.
  - by rewrite has_key_set_node, Hn, set_node_absorb.
  - by rewrite Hn.
Qed.

Lemma merge_set_absorb l k x sets1 sets2 g g1 :
  k ∉ sets1.*1 → k ∉ sets2.*1 → sets1.*1 ⊆ sets2.*1 →
  merge_set l k (Some x) sets1 g = inr g1 →
  merge_set l k (Some x) sets2 g1 = merge_set l k (Some x) sets2 g.
Proof.
  intros Hk1 Hk2 Hsub.
  destruct (existsb (has_key l k (Some x)) (nodes g)) eqn:Hex.
  - rewrite (merge_set_match l k x sets1) by done. intros [= <-].
    rewrite !merge_set_match; cbn [nodes rels]; try done.
    + by rewrite set_where_absorb.
    + by rewrite existsb_set_where.
  - rewrite (merge_set_create l k x sets1) by done. intros [= <-].
    rewrite (merge_set_create l k x sets2 g) by done.
    rewrite merge_set_match; cbn [nodes rels].
    + f_equal. f_equal. unfold set_where. rewrite fmap_app.
      cbn [fmap list_fmap]. rewrite has_key_fresh by done.
      rewrite set_node_absorb by done. f_equal. by apply set_where_none.
    + rewrite existsb_app. cbn [existsb]. rewrite has_key_fresh by done.
      by rewrite orb_true_r.
Qed.

Lemma upsert_sets_same_keys op1 op2 l k v1 v2 :
  upsert_target op1 = Some (l, k, v1) →
  upsert_target op2 = Some (l, k, v2) →
  (upsert_sets op1).*1 = (upsert_sets op2).*1.
Proof.
  destruct op1; simpl; intros H1; try discriminate;
    destruct op2; simpl; intros H2; try discriminate; by simplify_eq.
Qed.

Lemma set_prop_unset k v m :
  m !! k = None → set_prop k None (set_prop k v m) = m.
Proof.
  intros Hk. apply map_eq. intros k'. rewrite !lookup_set_prop.
  case_decide; by subst.
Qed.

End overwrite_facts.

(** X4. A later upsert of an entity replaces an earlier one entirely: for
    two calls of the same create function with the same identifier (a
    value), the later one with arguments the driver can send (no integer
    outside 64 bits), the store after both is the store the later call
    alone would have left, whatever the earlier call gave. *)
Theorem upsert_last_write_wins g op1 op2 l k x :
  upsert_target op1 = Some (l, k, Some x) →
  upsert_target op2 = Some (l, k, Some x) →
  packed op2 = true →
  store_after (store_after g op1) op2 = store_after g op2.
Proof.
  intros H1 H2 Hp2.
  destruct (packed op1) eqn:Hp1; [|by rewrite (store_after_overflow g op1)].
  destruct (transaction_upsert g op1 l k (Some x) Hp1 H1) as [Hg1 Hk1].
  destruct (transaction_upsert g op2 l k (Some x) Hp2 H2) as [Hg2 Hk2].
  destruct (merge_set_total l k x (upsert_sets op1) g) as [g1 Hm1].
  unfold store_after at 2. rewrite Hg1, Hm1.
  unfold store_after.
  destruct (transaction_upsert g1 op2 l k (Some x) Hp2 H2) as [-> _].
  assert ((upsert_sets op1).*1 ⊆ (upsert_sets op2).*1) as Hsub
    by by rewrite (upsert_sets_same_keys op1 op2 l k _ _ H1 H2).
  rewrite Hg2.
  rewrite (merge_set_absorb l k x _ _ g g1 Hk1 Hk2 Hsub Hm1).
  by destruct (merge_set_total l k x (upsert_sets op2) g) as [g2 ->].
Qed.

(** [upsert_last_write_wins] for two upserts of P001 on the populated
    store. *)
Lemma upsert_last_write_wins_witness :
  packed (CreatePatient (str "P001") (str "Alice Jones") (int 31) None) = true
  ∧ store_after
      (store_after populated
         (CreatePatient (str "P001") (str "A. Smith") None (str "555-0000")))
      (CreatePatient (str "P001") (str "Alice Jones") (int 31) None)
    = store_after populated
        (CreatePatient (str "P001") (str "Alice Jones") (int 31) None).
Proof.
  split; [reflexivity|].
  exact (upsert_last_write_wins populated
           (CreatePatient (str "P001") (str "A. Smith") None (str "555-0000"))
           (CreatePatient (str "P001") (str "Alice Jones") (int 31) None)
           Patient "patient_id" (VStr "P001") eq_refl eq_refl eq_refl).
Defined.

(** The statement of [set_appointment_reminder], run twice. *)
Lemma reminder_statement_twice g appointment_id r1 r2 :
  set_appointment_reminder (set_appointment_reminder g appointment_id r1)
    appointment_id r2
  = set_appointment_reminder g appointment_id r2
  ∧ (∀ i n, nodes (set_appointment_reminder g appointment_id None) !! i = Some n →
       has_key Appointment "appointment_id" appointment_id n = true →
       prop n "reminder_sent" = None)
  ∧ ((∀ n, n ∈ nodes g →
        has_key Appointment "appointment_id" appointment_id n = true →
        prop n "reminder_sent" = None) →
     set_appointment_reminder (set_appointment_reminder g appointment_id r1)
       appointment_id None = g).
Proof.
  assert ("appointment_id" ∉ [("reminder_sent", r1)].*1) as Hk.
  { cbn [fmap list_fmap fst]. rewrite not_elem_of_cons.
    split; [done|apply not_elem_of_nil]. }
  unfold set_appointment_reminder, match_set. cbn [nodes rels].
  split; [|split].
  - by rewrite set_where_absorb.
  - intros i n. rewrite set_where_lookup.
    destruct (nodes g !! i) as [n0|]; cbn [fmap option_fmap option_map];
      [|done].
    intros [= <-]. destruct (has_key _ _ _ n0) eqn:Hn0.
    + intros _. unfold prop, set_node. cbn [node_props].
      by rewrite lookup_apply_sets.
    + congruence.
  - intros Hunset. destruct g as [ns rs]. cbn [nodes rels] in *. f_equal.
    unfold set_where. rewrite <- list_fmap_compose.
    rewrite <- (list_fmap_id ns) at 2. apply list_fmap_ext.
    intros i n Hn. simpl.
    destruct (has_key Appointment "appointment_id" appointment_id n) eqn:Hkey;
      [|by rewrite Hkey].
    rewrite has_key_set_node, Hkey by done.
    destruct n as [l m]. unfold set_node, apply_sets.
    cbn [node_label node_props foldl fst snd]. f_equal.
    apply set_prop_unset. apply (Hunset (mkNode l m)); [|done].
    apply list_elem_of_lookup. eauto.
Qed.

Lemma store_after_reminder g appointment_id r :
  packable appointment_id = true → packable r = true →
  store_after g (SetAppointmentReminder appointment_id r)
  = set_appointment_reminder g appointment_id r.
Proof.
  intros Ha Hr. unfold store_after. rewrite transaction_packed; [done|].
  unfold packed. cbn [op_params forallb]. by rewrite Ha, Hr.
Qed.

(** X5. The reminder flag, for an appointment identifier the driver can
    send.  A later call of [set_appointment_reminder] for the same
    appointment, with a flag the driver can send, replaces an earlier one;
    a call with [None] removes the flag, so that it reads as unset again;
    and when the flag was unset on the appointments with that identifier,
    setting it and then calling with [None] gives the store back as it
    was. *)
Theorem reminder_overwrite_and_unset g appointment_id r1 r2 :
  packable appointment_id = true →
  packable r2 = true →
  store_after
    (store_after g (SetAppointmentReminder appointment_id r1))
    (SetAppointmentReminder appointment_id r2)
  = store_after g (SetAppointmentReminder appointment_id r2)
  ∧ (∀ i n,
       nodes (store_after g (SetAppointmentReminder appointment_id None)) !! i
       = Some n →
       has_key Appointment "appointment_id" appointment_id n = true →
       prop n "reminder_sent" = None)
  ∧ ((∀ n, n ∈ nodes g →
        has_key Appointment "appointment_id" appointment_id n = true →
        prop n "reminder_sent" = None) →
     store_after
       (store_after g (SetAppointmentReminder appointment_id r1))
       (SetAppointmentReminder appointment_id None)
     = g).
Proof.
  intros Ha Hr2.
  destruct (reminder_statement_twice g appointment_id None None)
    as (Hnone & _ & Hnone').
  assert ((∀ n, n ∈ nodes g →
             has_key Appointment "appointment_id" appointment_id n = true →
             prop n "reminder_sent" = None) →
          set_appointment_reminder g appointment_id None = g) as Hid.
  { intros Hunset. rewrite <- Hnone. by apply Hnone'. }
  rewrite !(store_after_reminder _ appointment_id None) by done.
  rewrite !(store_after_reminder _ appointment_id r2) by done.
  destruct (packable r1) eqn:Hr1.
  - rewrite (store_after_reminder g appointment_id r1) by done.
    apply reminder_statement_twice.
  - assert (store_after g (SetAppointmentReminder appointment_id r1) = g)
      as ->.
    { apply store_after_overflow. unfold packed. cbn [op_params forallb].
      by rewrite Hr1, andb_false_r. }
    split; [done|]. split; [|done].
    apply (reminder_statement_twice g appointment_id None None).
Qed.

(** [reminder_overwrite_and_unset] for A001 of the populated store, where
    no reminder has been set yet. *)
Lemma reminder_overwrite_and_unset_witness :
  packable (str "A001") = true
  ∧ store_after
      (store_after populated
         (SetAppointmentReminder (str "A001") (boolean false)))
      (SetAppointmentReminder (str "A001") None)
    = populated.
Proof.
  split; [reflexivity|].
  destruct (reminder_overwrite_and_unset populated (str "A001")
              (boolean false) None eq_refl eq_refl) as (_ & _ & Hback).
  apply Hback.
  apply (proj1 (Forall_forall
    (λ n, has_key Appointment "appointment_id" (str "A001") n = true →
          prop n "reminder_sent" = None) (nodes populated))).
  apply (bool_decide_unpack _). vm_compute. reflexivity.
Defined.

(** * Writes and the queries that follow them *)

(** X6. Linking makes the traversals find each other.  When the store
    holds a patient, an appointment and a doctor under the given
    identifiers, then after [link_patient_appointment] and
    [link_appointment_doctor] whatever [get_patient_appointments] returns
    for the patient holds the row of that appointment with that doctor's
    name, and whatever [get_doctor_patients] returns for the doctor holds
    the row of that patient. *)
Theorem link_then_query g patient_id appointment_id doctor_id p a d np na nd :
  nodes g !! p = Some np → has_key Patient "patient_id" patient_id np = true →
  nodes g !! a = Some na →
  has_key Appointment "appointment_id" appointment_id na = true →
  nodes g !! d = Some nd → has_key Doctor "doctor_id" doctor_id nd = true →
  let g' := link_appointment_doctor
              (link_patient_appointment g patient_id appointment_id)
              appointment_id doctor_id in
  (∀ rows, get_patient_appointments g' patient_id rows →
     mkAppointmentRow appointment_id (prop na "date") (prop na "time")
       (prop nd "name") ∈ rows)
  ∧ (∀ rows, get_doctor_patients g' doctor_id rows →
       mkPatientRow patient_id (prop np "name") ∈ rows).
Proof.
  intros Hnp Hp Hna Ha Hnd Hd g'.
  assert (nodes g' = nodes g) as Hnodes by done.
  assert (mkRel HAS_APPOINTMENT p a ∈ rels g') as Hr1.
  { subst g'. unfold link_appointment_doctor, match_merge_rel at 1.
    cbn [rels]. apply merge_rel_fold_elem. left.
    unfold link_patient_appointment, match_merge_rel. cbn [rels].
    apply merge_rel_fold_elem. right. exists (p, a). split; [|done].
    apply elem_of_pairs. split; apply elem_of_match_idx; eauto. }
  assert (mkRel WITH_DOCTOR a d ∈ rels g') as Hr2.
  { subst g'. unfold link_appointment_doctor, match_merge_rel at 1.
    cbn [rels nodes]. apply merge_rel_fold_elem. right. exists (a, d).
    split; [|done]. apply elem_of_pairs.
    split; apply elem_of_match_idx; eauto. }
  apply has_key_spec in Hp as (Hlp & Hsp & Hidp).
  apply has_key_spec in Ha as (Hla & Hsa & Hida).
  apply has_key_spec in Hd as (Hld & Hsd & Hidd).
  split; intros rows Hrows.
  - unfold get_patient_appointments in Hrows. rewrite Hrows.
    apply elem_of_patient_appointment_rows. exists p, a, d, np, na, nd.
    rewrite Hnodes, Hida. done.
  - unfold get_doctor_patients in Hrows. rewrite Hrows.
    apply elem_of_doctor_patient_rows. exists d, a, p, nd, na, np.
    rewrite Hnodes, Hidp. done.
Qed.

(** [link_then_query] for P002, A001 and D002 of the populated store,
    which the notebook does not link. *)
Lemma link_then_query_witness :
  mkPatientRow (str "P002") (str "Bob Johnson")
  ∈ doctor_patient_rows
      (link_appointment_doctor
         (link_patient_appointment populated (str "P002") (str "A001"))
         (str "A001") (str "D002"))
      (str "D002").
Proof.
  refine (proj2 (link_then_query populated (str "P002") (str "A001")
                   (str "D002") 1 4 3
                   (mkNode Patient {[ "patient_id" := VStr "P002";
                                      "name" := VStr "Bob Johnson";
                                      "age" := VInt 45;
                                      "contact" := VStr "555-5678" ]})
                   (mkNode Appointment {[ "appointment_id" := VStr "A001";
                                          "date" := VStr "2023-10-15";
                                          "time" := VStr "10:00" ]})
                   (mkNode Doctor {[ "doctor_id" := VStr "D002";
                                     "name" := VStr "Dr. John Doe";
                                     "specialty" := VStr "Neurology" ]})
                   _ _ _ _ _ _) _ _);
    vm_compute; reflexivity.
Defined.

Section read_frame.
Implicit Types (g : Graph) (sets : list (string * Param)).

Lemma node_at_set_where_bind {B} (P : Node → bool) sets g rs i
    (f : Node → list B) :
  node_at (mkGraph (set_where P sets (nodes g)) rs) i ≫= f
  = node_at g i ≫= (λ n, f (if P n then set_node sets n else n)).
Proof.
  unfold node_at. cbn [nodes]. rewrite set_where_lookup.
  by destruct (nodes g !! i).
Qed.

Lemma prop_set_where_other (P : Node → bool) sets n k :
  k ∉ sets.*1 → prop (if P n then set_node sets n else n) k = prop n k.
Proof.
  intros Hk. destruct (P n); [|done]. unfold prop, set_node.
  cbn [node_props]. by apply lookup_apply_sets_other.
Qed.

Lemma has_label_set_node l sets n :
  has_label l (set_node sets n) = has_label l n.
Proof. done. Qed.

End read_frame.

(** X7. The reminder flag is invisible to the three read functions:
    whatever its arguments, [set_appointment_reminder] leaves the rows of
    [get_patient_appointments], of [get_doctor_patients] and of
    [get_doctor_workload] as they were. *)
Theorem reminder_invisible_to_reads g appointment_id reminder_sent :
  let g' := set_appointment_reminder g appointment_id reminder_sent in
  (∀ patient_id rows,
     get_patient_appointments g' patient_id rows
     ↔ get_patient_appointments g patient_id rows)
  ∧ (∀ doctor_id rows,
       get_doctor_patients g' doctor_id rows
       ↔ get_doctor_patients g doctor_id rows)
  ∧ (∀ rows, get_doctor_workload g' rows ↔ get_doctor_workload g rows).
Proof.
  intros g'. subst g'. unfold set_appointment_reminder, match_set.
  assert (∀ k, k ≠ "reminder_sent" →
               k ∉ [("reminder_sent", reminder_sent)].*1) as Hother.
  { intros k Hk. cbn [fmap list_fmap fst]. rewrite not_elem_of_cons.
    split; [done|apply not_elem_of_nil]. }
  split; [|split].
  - intros pid rows. unfold get_patient_appointments.
    replace (patient_appointment_rows _ pid)
      with (patient_appointment_rows g pid); [done|].
    unfold patient_appointment_rows. cbn [nodes rels].
    rewrite match_idx_set_where
      by (intros n; apply has_key_set_node, Hother; done).
    apply list_bind_ext; [intros p|done].
    apply list_bind_ext; [intros r1|done].
    rewrite node_at_set_where_bind.
    apply list_bind_ext; [intros na|done].
    apply list_bind_ext; [intros r2|done].
    rewrite node_at_set_where_bind.
    apply list_bind_ext; [intros nd|done].
    by rewrite !prop_set_where_other by (apply Hother; done).
  - intros did rows. unfold get_doctor_patients.
    replace (doctor_patient_rows _ did)
      with (doctor_patient_rows g did); [done|].
    unfold doctor_patient_rows. cbn [nodes rels].
    rewrite match_idx_set_where
      by (intros n; apply has_key_set_node, Hother; done).
    apply list_bind_ext; [intros d|done].
    apply list_bind_ext; [intros r2|done].
    rewrite node_at_set_where_bind.
    apply list_bind_ext; [intros na|done].
    apply list_bind_ext; [intros r1|done].
    rewrite node_at_set_where_bind.
    apply list_bind_ext; [intros np|done].
    by rewrite !prop_set_where_other by (apply Hother; done).
  - intros rows. unfold get_doctor_workload.
    replace (workload_matches _) with (workload_matches g); [done|].
    unfold workload_matches. cbn [nodes rels].
    rewrite match_idx_set_where by (intros n; apply has_label_set_node).
    apply list_bind_ext; [intros d|done].
    rewrite node_at_set_where_bind.
    apply list_bind_ext; [intros nd|done].
    apply list_bind_ext; [intros r|done].
    rewrite node_at_set_where_bind.
    apply list_bind_ext; [intros na|done].
    by rewrite !prop_set_where_other by (apply Hother; done).
Qed.

(** * Missing identifiers, fresh entities *)

Lemma match_idx_null l k ns : match_idx (has_key l k None) ns = [].
Proof. apply match_idx_nil. by induction ns. Qed.

(** X8. A call with [None] where an identifier is expected, the other
    arguments being ones the driver can send: every create function
    raises the engine's refusal of a null MERGE key, and writes nothing
    whatever the other arguments; every link function, with [None] for
    either endpoint, and [set_appointment_reminder] complete without
    error and leave the store as it was; [get_patient_appointments] and
    [get_doctor_patients] return the empty list. *)
Theorem none_identifier :
  (∀ g op l k,
     upsert_target op = Some (l, k, None) →
     (packed op = true → transaction g op = inl (NullMergeKey l k))
     ∧ store_after g op = g)
  ∧ (∀ g op t la ka va lb kb vb,
       link_target op = Some (t, (la, ka, va), (lb, kb, vb)) →
       va = None ∨ vb = None →
       packed op = true →
       transaction g op = inr g)
  ∧ (∀ g reminder_sent,
       packable reminder_sent = true →
       transaction g (SetAppointmentReminder None reminder_sent) = inr g)
  ∧ (∀ g rows, get_patient_appointments g None rows ↔ rows = [])
  ∧ (∀ g rows, get_doctor_patients g None rows ↔ rows = []).
Proof.
  split; [|split; [|split; [|split]]].
  - intros g op l k Hup. by apply upsert_null_id_raises.
  - intros g op t la ka va lb kb vb Hlink Hnone Hp.
    rewrite (transaction_link g op t la ka va lb kb vb Hp Hlink). f_equal.
    unfold match_merge_rel. rewrite pairs_nil.
    + by destruct g.
    + destruct Hnone as [-> | ->]; [left|right]; apply match_idx_null.
  - intros g r Hr. rewrite transaction_packed.
    2:{ unfold packed. cbn [op_params forallb packable]. by rewrite Hr. }
    cbn [run_statement]. f_equal.
    unfold set_appointment_reminder, match_set.
    rewrite set_where_none; [by destruct g|]. by induction (nodes g).
  - intros g rows. unfold get_patient_appointments, patient_appointment_rows.
    rewrite match_idx_null. apply Permutation_nil_r.
  - intros g rows. unfold get_doctor_patients, doctor_patient_rows.
    rewrite match_idx_null. apply Permutation_nil_r.
Qed.

(** [none_identifier] for calls on the populated store. *)
Lemma none_identifier_witness :
  transaction populated (CreateDoctor None (str "Dr. Who") (str "Surgery"))
  = inl (NullMergeKey Doctor "doctor_id")
  ∧ transaction populated (LinkAppointmentDoctor (str "A001") None)
    = inr populated.
Proof.
  destruct none_identifier as (Hcreate & Hlink & _).
  split.
  - apply (Hcreate populated
             (CreateDoctor None (str "Dr. Who") (str "Surgery"))
             Doctor "doctor_id" eq_refl).
    reflexivity.
  - apply (Hlink populated (LinkAppointmentDoctor (str "A001") None)
             WITH_DOCTOR Appointment "appointment_id" (str "A001")
             Doctor "doctor_id" None eq_refl).
    + right. reflexivity.
    + reflexivity.
Defined.

(** X9. An upsert creates exactly when the entity is absent.  For an
    identifier that is a value and arguments the driver can send (no
    integer outside 64 bits): when the store holds an entity of the kind
    with that identifier the call adds no node; when it holds none the
    call adds one node, at the end, of that kind, whose properties are the
    identifier and the attributes of the call that are not [None], and
    nothing else (so a new appointment has no [reminder_sent]). *)
Theorem upsert_creates_when_absent g op l k x :
  upsert_target op = Some (l, k, Some x) →
  packed op = true →
  ∃ g',
    transaction g op = inr g'
    ∧ (0 < entity_count l k (Some x) g → length (nodes g') = length (nodes g))
    ∧ (entity_count l k (Some x) g = 0 →
       ∃ n, nodes g' = nodes g ++ [n]
            ∧ node_label n = l
            ∧ prop n k = Some x
            ∧ (∀ k' v, (k', v) ∈ upsert_sets op → prop n k' = v)
            ∧ (∀ k', k' ≠ k → k' ∉ (upsert_sets op).*1 → prop n k' = None)).
Proof.
  intros Ht Hp.
  destruct (transaction_upsert g op l k (Some x) Hp Ht) as [-> Hk].
  unfold entity_count.
  destruct (existsb (has_key l k (Some x)) (nodes g)) eqn:Hex.
  - rewrite merge_set_match by done. eexists. split; [done|].
    cbn [nodes]. split; [intros _; apply set_where_length|].
    intros Hz%length_zero_iff_nil%match_idx_nil. congruence.
  - rewrite merge_set_create by done. eexists. split; [done|].
    cbn [nodes]. split.
    + apply match_idx_nil in Hex. rewrite Hex. simpl. lia.
    + intros _. eexists. split; [done|]. split; [done|].
      unfold prop, set_node. cbn [node_props]. split; [|split].
      * rewrite lookup_apply_sets_other by done. apply lookup_singleton_eq.
      * intros k' v Hin. rewrite lookup_apply_sets.
        by rewrite (assigned_elem _ _ _ (upsert_sets_NoDup op) Hin).
      * intros k' Hne Hnotin. rewrite lookup_apply_sets_other by done.
        by apply lookup_singleton_ne.
Qed.

(** [upsert_creates_when_absent] for a new appointment in the populated
    store. *)
Lemma upsert_creates_when_absent_witness :
  entity_count Appointment "appointment_id" (str "A009") populated = 0
  ∧ packed (CreateAppointment (str "A009") (str "2023-11-01") None) = true
  ∧ ∃ g', transaction populated
            (CreateAppointment (str "A009") (str "2023-11-01") None) = inr g'
          ∧ ∃ n, nodes g' = nodes populated ++ [n]
                 ∧ prop n "time" = None
                 ∧ prop n "reminder_sent" = None.
Proof.
  split; [vm_compute; reflexivity|]. split; [reflexivity|].
  destruct (upsert_creates_when_absent populated
              (CreateAppointment (str "A009") (str "2023-11-01") None)
              Appointment "appointment_id" (VStr "A009") eq_refl eq_refl)
    as (g' & Htx & _ & Hnew).
  exists g'. split; [exact Htx|].
  destruct Hnew as (n & Hn & _ & _ & Hsets & Hother);
    [vm_compute; reflexivity|].
  exists n. split; [exact Hn|]. split.
  - apply Hsets. right. left.
  - apply Hother; [discriminate|].
    cbn [upsert_sets fmap list_fmap fst]. rewrite !not_elem_of_cons.
    repeat split; try discriminate. apply not_elem_of_nil.
Defined.

(** * Links that a patient's appointment list does not see *)

Section link_frame_facts.
Implicit Types (g : Graph) (rs added : list Rel).

Lemma merge_rel_fold_added t (pairs : list (nat * nat)) rs :
  ∃ added,
    foldl (merge_rel t) rs pairs = rs ++ added
    ∧ ∀ r, r ∈ added → ∃ ab, ab ∈ pairs ∧ r = mkRel t ab.1 ab.2.
Proof.
  revert rs. induction pairs as [|ab pairs IH]; intros rs.
  - exists []. split; [by rewrite app_nil_r|].
    intros r Hr. by apply not_elem_of_nil in Hr.
  - cbn [foldl]. unfold merge_rel at 2. case_bool_decide as Hin.
    + destruct (IH rs) as (added & -> & Hadded). exists added.
      split; [done|]. intros r Hr. destruct (Hadded r Hr) as (ab' & ? & ?).
      exists ab'. split; [by right|done].
    + destruct (IH (rs ++ [mkRel t ab.1 ab.2])) as (added & -> & Hadded).
      exists (mkRel t ab.1 ab.2 :: added). split; [by rewrite <- app_assoc|].
      intros r [->|Hr]%elem_of_cons.
      * exists ab. split; [by left|done].
      * destruct (Hadded r Hr) as (ab' & ? & ?).
        exists ab'. split; [by right|done].
Qed.

Lemma filter_nil_forall {A} (P : A → Prop) `{!∀ x, Decision (P x)}
    (l : list A) :
  (∀ x, x ∈ l → ¬ P x) → filter P l = [].
Proof.
  intros Hnone. apply elem_of_nil_inv.
  intros x [HP Hx]%list_elem_of_filter. by apply (Hnone x).
Qed.

Lemma patient_appointment_rows_frame g patient_id added :
  (∀ r, r ∈ added → rel_type r ≠ WITH_DOCTOR) →
  (∀ r, r ∈ added → rel_type r = HAS_APPOINTMENT →
        rel_src r ∉ match_idx (has_key Patient "patient_id" patient_id)
                      (nodes g)) →
  patient_appointment_rows (mkGraph (nodes g) (rels g ++ added)) patient_id
  = patient_appointment_rows g patient_id.
Proof.
  intros Hdoc Hpat. unfold patient_appointment_rows. cbn [nodes rels].
  assert (∀ i, out_rels WITH_DOCTOR i (rels g ++ added)
               = out_rels WITH_DOCTOR i (rels g)) as Hwd.
  { intros i. unfold out_rels. rewrite filter_app.
    rewrite (filter_nil_forall _ added), app_nil_r; [done|].
    intros r Hr [Ht _]. by apply (Hdoc r Hr). }
  apply Forall_bind_ext, Forall_forall. intros p Hp.
  assert (out_rels HAS_APPOINTMENT p (rels g ++ added)
          = out_rels HAS_APPOINTMENT p (rels g)) as ->.
  { unfold out_rels. rewrite filter_app.
    rewrite (filter_nil_forall _ added), app_nil_r; [done|].
    intros r Hr [Ht Hs]. apply (Hpat r Hr Ht). by rewrite Hs. }
  apply list_bind_ext; [intros r1|done].
  apply list_bind_ext; [intros na|done].
  by rewrite Hwd.
Qed.

Lemma match_merge_rel_frame t la ka va lb kb vb g patient_id :
  t ≠ WITH_DOCTOR →
  (t = HAS_APPOINTMENT →
   ∀ a, a ∈ match_idx (has_key la ka va) (nodes g) →
        a ∉ match_idx (has_key Patient "patient_id" patient_id) (nodes g)) →
  patient_appointment_rows (match_merge_rel t la ka va lb kb vb g) patient_id
  = patient_appointment_rows g patient_id.
Proof.
  intros Ht Hsrc. unfold match_merge_rel.
  destruct (merge_rel_fold_added t
              (a ← match_idx (has_key la ka va) (nodes g);
               b ← match_idx (has_key lb kb vb) (nodes g); [(a, b)])
              (rels g)) as (added & -> & Hadded).
  apply patient_appointment_rows_frame.
  - intros r Hr. destruct (Hadded r Hr) as (ab & _ & ->). done.
  - intros r Hr Hty. destruct (Hadded r Hr) as ([a b] & Hab & ->).
    apply elem_of_pairs in Hab as [Ha _]. cbn [rel_src fst].
    by apply Hsrc.
Qed.

End link_frame_facts.

(** X10. Links that leave a patient's appointment list alone: linking an
    appointment to a patient with another identifier, and linking
    treatments and medications, do not change what
    [get_patient_appointments] returns for the patient. *)
Theorem links_leave_other_patients :
  (∀ g patient_id other_id appointment_id rows,
     patient_id ≠ other_id →
     get_patient_appointments
       (link_patient_appointment g other_id appointment_id) patient_id rows
     ↔ get_patient_appointments g patient_id rows)
  ∧ (∀ g patient_id treatment_id medication_id rows,
       get_patient_appointments
         (link_treatment_medication g treatment_id medication_id)
         patient_id rows
       ↔ get_patient_appointments g patient_id rows)
  ∧ (∀ g patient_id other_id treatment_id rows,
       get_patient_appointments
         (link_patient_treatment g other_id treatment_id) patient_id rows
       ↔ get_patient_appointments g patient_id rows).
Proof.
  split; [|split].
  - intros g pid pid' aid rows Hne. unfold get_patient_appointments.
    unfold link_patient_appointment.
    rewrite match_merge_rel_frame; [done|done|].
    intros _ a Ha Ha'.
    apply elem_of_match_idx in Ha as (n & Hn & Hk).
    apply elem_of_match_idx in Ha' as (n' & Hn' & Hk').
    assert (n' = n) as -> by congruence.
    apply has_key_spec in Hk as (_ & _ & Hid).
    apply has_key_spec in Hk' as (_ & _ & Hid').
    congruence.
  - intros g pid t m rows. unfold get_patient_appointments.
    unfold link_treatment_medication.
    by rewrite match_merge_rel_frame.
  - intros g pid p t rows. unfold get_patient_appointments.
    unfold link_patient_treatment.
    by rewrite match_merge_rel_frame.
Qed.

(** [links_leave_other_patients] for P001 when A001 is linked to P002 as
    well in the populated store. *)
Lemma links_leave_other_patients_witness :
  get_patient_appointments
    (link_patient_appointment populated (str "P002") (str "A001"))
    (str "P001") [row_A001].
Proof.
  destruct links_leave_other_patients as (Hother & _).
  apply (Hother populated (str "P001") (str "P002") (str "A001"));
    [discriminate|].
  vm_compute. reflexivity.
Defined.

(** * The workload counts add up *)

Section workload_total.
Implicit Types (g : Graph) (rs : list Rel) (ds : list nat).

Lemma sum_count_row k acc :
  sum_list (wl_appointments <$> count_row k acc)
  = S (sum_list (wl_appointments <$> acc)).
Proof.
  induction acc as [|r acc IH]; [done|]. cbn [count_row].
  destruct (decide (wl_doctor r = k)); [done|].
  cbn [fmap list_fmap] in *. simpl. rewrite IH. lia.
Qed.

Lemma sum_group_count keys :
  sum_list (wl_appointments <$> group_count keys) = length keys.
Proof.
  unfold group_count.
  assert (∀ acc, sum_list (wl_appointments
                             <$> foldl (λ acc k, count_row k acc) acc keys)
                 = sum_list (wl_appointments <$> acc) + length keys) as Haux.
  { induction keys as [|k keys IH]; intros acc; cbn [foldl].
    - simpl. lia.
    - rewrite IH, sum_count_row. simpl. lia. }
  by rewrite Haux.
Qed.

Lemma length_doctor_rows g (c : Param) rs :
  length (r ← rs; a ← node_at g (rel_src r); [c])
  = length (filter (λ r, is_Some (nodes g !! rel_src r)) rs).
Proof.
  induction rs as [|r rs IH]; [done|].
  rewrite bind_cons, length_app, IH, filter_cons. unfold node_at.
  destruct (nodes g !! rel_src r) as [n|]; simpl.
  - destruct (decide (is_Some (Some n))) as [_|Hno]; [done|by destruct Hno].
  - destruct (decide (is_Some (@None Node))) as [[? ?]|_]; done.
Qed.

Lemma length_workload_matches_aux g ds :
  (∀ d, d ∈ ds → is_Some (nodes g !! d)) →
  length (d ← ds; dn ← node_at g d; r ← in_rels WITH_DOCTOR d (rels g);
          a ← node_at g (rel_src r); [prop dn "name"])
  = sum_list (doctor_appointments g <$> ds).
Proof.
  induction ds as [|d ds IH]; intros Hall; [done|].
  rewrite bind_cons, length_app, IH by (intros d' Hd'; apply Hall; by right).
  destruct (Hall d) as [dn Hdn]; [by left|].
  change (node_at g d) with (option_list (nodes g !! d)). rewrite Hdn.
  change (option_list (Some dn)) with [dn].
  rewrite bind_singleton, length_doctor_rows. done.
Qed.

Lemma length_filter_or {A} (P Q : A → Prop)
    `{!∀ x, Decision (P x), !∀ x, Decision (Q x)} (l : list A) :
  (∀ x, P x → Q x → False) →
  length (filter (λ x, P x ∨ Q x) l)
  = length (filter P l) + length (filter Q l).
Proof.
  intros Hdisj. induction l as [|x l IH]; [done|].
  rewrite !filter_cons.
  destruct (decide (P x)) as [HP|HP], (decide (Q x)) as [HQ|HQ].
  - destruct (Hdisj x HP HQ).
  - rewrite decide_True by (by left). simpl. lia.
  - rewrite decide_True by (by right). simpl. lia.
  - rewrite decide_False by (by intros [?|?]). done.
Qed.

Lemma sum_in_degrees (R : Rel → Prop) `{!∀ r, Decision (R r)} rs ds :
  NoDup ds →
  sum_list ((λ d, length (filter (λ r, R r ∧ rel_dst r = d) rs)) <$> ds)
  = length (filter (λ r, R r ∧ rel_dst r ∈ ds) rs).
Proof.
  induction 1 as [|d ds Hnotin Hnd IH].
  - rewrite filter_nil_forall; [done|].
    intros r _ [_ Hin]. by apply not_elem_of_nil in Hin.
  - cbn [fmap list_fmap]. simpl. rewrite IH.
    rewrite <- length_filter_or.
    + f_equal. apply list_filter_iff. intros r. rewrite elem_of_cons. tauto.
    + intros r [_ Heq] [_ Hin]. by subst d.
Qed.

Lemma match_idx_NoDup (P : Node → bool) ns : NoDup (match_idx P ns).
Proof. unfold match_idx. apply NoDup_filter, NoDup_seq. Qed.

Lemma length_workload_matches g :
  length (workload_matches g) = length (doctor_links g).
Proof.
  unfold workload_matches. rewrite length_workload_matches_aux.
  2:{ intros d (n & Hn & _)%elem_of_match_idx. by eexists. }
  assert (doctor_links g
          = filter (λ r, (rel_type r = WITH_DOCTOR
                          ∧ is_Some (nodes g !! rel_src r))
                         ∧ rel_dst r ∈ match_idx (has_label Doctor) (nodes g))
                   (rels g)) as ->.
  { unfold doctor_links. apply list_filter_iff. intros r.
    rewrite elem_of_match_idx. unfold has_label. split.
    - intros (Ht & Hs & Hd). split; [done|].
      destruct (nodes g !! rel_dst r) as [n|]; [|done].
      exists n. split; [done|]. apply bool_decide_eq_true.
      by injection Hd.
    - intros [[Ht Hs] (n & Hn & Hl%bool_decide_eq_true)].
      split; [done|]. split; [done|]. by rewrite Hn, <- Hl. }
  rewrite <- sum_in_degrees by apply match_idx_NoDup.
  f_equal. apply list_fmap_ext. intros _ d _.
  unfold doctor_appointments, in_rels. rewrite list_filter_filter.
  f_equal. apply list_filter_iff. intros r. tauto.
Qed.

End workload_total.

(** X11. The workload counts add up: in whatever list
    [get_doctor_workload] returns, the counts sum to the number of
    WITH_DOCTOR relationships from a node of the store into a Doctor
    node; in a store typed by the schema (every store the notebook
    builds) that is the number of all WITH_DOCTOR relationships, so no
    appointment-doctor link is lost or counted twice by the grouping. *)
Theorem workload_counts_total :
  (∀ g rows,
     get_doctor_workload g rows →
     sum_list (wl_appointments <$> rows) = length (doctor_links g))
  ∧ (∀ g,
       schema_typed g →
       doctor_links g = filter (λ r, rel_type r = WITH_DOCTOR) (rels g)).
Proof.
  split.
  - intros g rows [Hperm _]. rewrite Hperm, sum_group_count.
    apply length_workload_matches.
  - intros g Htyped. unfold doctor_links. apply filter_ext_elem.
    intros r Hr. split; [by intros [? _]|]. intros Ht. split; [done|].
    destruct (Htyped r Hr) as (ns & nd & Hs & Hd & _ & Hld).
    rewrite Hs, Hd, Ht in *. split; [by eexists|]. simpl. by rewrite Hld.
Qed.

(** [workload_counts_total] for the populated store: two rows of count 1,
    two WITH_DOCTOR relationships. *)
Lemma workload_counts_total_witness :
  get_doctor_workload populated [row_Brown; row_Doe]
  ∧ sum_list (wl_appointments <$> [row_Brown; row_Doe])
    = length (doctor_links populated).
Proof.
  assert (get_doctor_workload populated [row_Brown; row_Doe]) as Hrows.
  { split; [vm_compute; reflexivity|]. repeat constructor. }
  split; [exact Hrows|].
  apply (proj1 workload_counts_total populated _ Hrows).
Defined.

(** X12. Links only add rows: after any of the four link functions,
    whatever the arguments, every row [get_patient_appointments] and
    [get_doctor_patients] could return before is still among the rows
    they return. *)
Theorem links_only_add_rows g op g' :
  is_Some (link_target op) →
  transaction g op = inr g' →
  (∀ patient_id rows rows' row,
     get_patient_appointments g patient_id rows →
     get_patient_appointments g' patient_id rows' →
     row ∈ rows → row ∈ rows')
  ∧ (∀ doctor_id rows rows' row,
       get_doctor_patients g doctor_id rows →
       get_doctor_patients g' doctor_id rows' →
       row ∈ rows → row ∈ rows').
Proof.
  intros [[[t [[la ka] va]] [[lb kb] vb]] Hlink].
  intros [_ Hrun]%transaction_inr_packed. revert Hrun.
  rewrite (statement_link g op t la ka va lb kb vb Hlink). intros [= <-].
  assert (∀ r, r ∈ rels g →
               r ∈ rels (match_merge_rel t la ka va lb kb vb g)) as Hrels.
  { intros r Hr. unfold match_merge_rel. cbn [rels].
    apply merge_rel_fold_elem. by left. }
  split.
  - intros pid rows rows' row Hrows Hrows'.
    unfold get_patient_appointments in *. rewrite Hrows, Hrows'.
    rewrite !elem_of_patient_appointment_rows.
    intros (p & a & d & np & na & nd & ? & ? & ? & ? & ? & ? & ? & ? & ?).
    exists p, a, d, np, na, nd. cbn [nodes match_merge_rel].
    repeat split; try done; by apply Hrels.
  - intros did rows rows' row Hrows Hrows'.
    unfold get_doctor_patients in *. rewrite Hrows, Hrows'.
    rewrite !elem_of_doctor_patient_rows.
    intros (d & a & p & nd & na & np & ? & ? & ? & ? & ? & ? & ? & ? & ?).
    exists d, a, p, nd, na, np. cbn [nodes match_merge_rel].
    repeat split; try done; by apply Hrels.
Qed.

(** [links_only_add_rows] for a second appointment linked to D001 in the
    populated store. *)
Lemma links_only_add_rows_witness :
  row_P001
  ∈ doctor_patient_rows
      (link_appointment_doctor populated (str "A002") (str "D001"))
      (str "D001").
Proof.
  refine (proj2 (links_only_add_rows populated
                   (LinkAppointmentDoctor (str "A002") (str "D001"))
                   (link_appointment_doctor populated (str "A002") (str "D001"))
                   _ eq_refl)
            (str "D001") [row_P001] _ row_P001 _ _ _).
  - eexists. reflexivity.
  - vm_compute. reflexivity.
  - unfold get_doctor_patients. reflexivity.
  - left.
Defined.
